(** * nextjs-brand: a shallow embedding of [src/index.ts]

    [createBrandConfig] merges branding, regional and localisation options
    with environment variables and built-in defaults, and returns the
    aggregate [CONFIG] together with three helpers: the translation lookup
    [t] and the locale-cookie writer and reader.

    The embedding follows the TypeScript source function by function.
    - Values of type [any] (translation dictionaries, custom configuration)
      are [JsVal]; objects used as dictionaries are [gmap string JsVal].
    - A property read on [undefined] or [null], or one that runs a
      throwing accessor of a built-in function, raises a [TypeError], and a
      reference to a missing global a [ReferenceError]; these are the ways
      the code can throw, and they are modelled by [Result].
    - Strings are sequences of code units, written with [string]
      (8-bit units; no property below depends on the width of a unit).
    - The host is explicit: [process.env] is a finite map, the built-in
      prototype objects are an instance of [Realm], and the ambient
      [document] is an optional cookie store that is passed as state. *)

From Stdlib Require Import ZArith Lia Bool Ascii String List.
From stdpp Require Import base option list gmap strings fin_maps.

Local Open Scope string_scope.

(** ** Strings as the JavaScript library sees them *)

Module JsString.

(** [s.startsWith(p)] *)
Definition startsWith (p s : string) : bool := String.prefix p s.

Definition cons_head (c : ascii) (l : list string) : list string :=
  match l with
  | [] => [String c ""]
  | h :: rest => String c h :: rest
  end.

(** The scan behind [s.split(sep)] for a non-empty separator: at each
    position, a match of [sep] closes the current piece and the scan
    resumes after it ([skip] counts the code units of the match still to
    be passed over). *)
Fixpoint split_from (sep : string) (skip : nat) (s : string) : list string :=
  match s with
  | "" => [""]
  | String c s' =>
      match skip with
      | S k => split_from sep k s'
      | O =>
          if String.prefix sep s
          then "" :: split_from sep (Nat.pred (String.length sep)) s'
          else cons_head c (split_from sep 0 s')
      end
  end.

(** [s.split(sep)] *)
Definition split (sep s : string) : list string := split_from sep 0 s.

(** [rows.join(sep)] *)
Fixpoint join (sep : string) (rows : list string) : string :=
  match rows with
  | [] => ""
  | [r] => r
  | r :: rest => r +:+ sep +:+ join sep rest
  end.

(** [c] occurs in [s] *)
Fixpoint has_char (c : ascii) (s : string) : bool :=
  match s with
  | "" => false
  | String a s' => Ascii.eqb a c || has_char c s'
  end.

(** The text before and after the first occurrence of [c]. *)
Fixpoint cut (c : ascii) (s : string) : option (string * string) :=
  match s with
  | "" => None
  | String a s' =>
      if Ascii.eqb a c then Some ("", s')
      else match cut c s' with
           | Some (l, r) => Some (String a l, r)
           | None => None
           end
  end.

Definition is_space (c : ascii) : bool :=
  Ascii.eqb c " " || Ascii.eqb c "009".

Fixpoint trim_start (s : string) : string :=
  match s with
  | String c s' => if is_space c then trim_start s' else s
  | "" => ""
  end.

Fixpoint trim_end (s : string) : string :=
  match s with
  | "" => ""
  | String c s' =>
      match trim_end s' with
      | "" => if is_space c then "" else String c ""
      | r => String c r
      end
  end.

Definition trim (s : string) : string := trim_end (trim_start s).

Definition digit_of (c : ascii) : option nat :=
  let n := nat_of_ascii c in
  if (48 <=? n)%nat && (n <=? 57)%nat then Some (n - 48)%nat else None.

Fixpoint digits_from (acc : nat) (s : string) : option nat :=
  match s with
  | "" => Some acc
  | String c s' =>
      match digit_of c with
      | Some d => digits_from (10 * acc + d) s'
      | None => None
      end
  end.

(** The index a property key denotes when it is a canonical numeric
    string: decimal digits with no sign and no leading zero. *)
Definition array_index (p : string) : option nat :=
  match p with
  | "" => None
  | String c rest =>
      if Ascii.eqb c "0" then (if String.eqb rest "" then Some 0%nat else None)
      else digits_from 0 p
  end.

End JsString.

(** ** Values *)

(** The values a caller can store in a dictionary or in [customConfig]:
    JSON data, plus [JHost] for the host's own objects (the built-in
    functions and prototype objects that a property read can reach).
    [JNum] carries the integers; a fraction behaves like a non-zero integer
    and NaN like zero in every operation used here. *)
#[local] Unset Elimination Schemes.
Inductive JsVal : Type :=
| JUndef
| JNull
| JBool (b : bool)
| JNum (n : Z)
| JStr (s : string)
| JArr (elems : list JsVal)
| JObj (props : gmap string JsVal)
| JHost (id : nat).
#[local] Set Elimination Schemes.

(** The errors the code can raise: a property read on [undefined] or
    [null], and a reference to a global that does not exist. *)
Inductive Error : Type :=
| TypeError
| ReferenceError.

(** The outcome of an expression that may throw. *)
Inductive Result (A : Type) : Type :=
| Ok (a : A)
| Throw (e : Error).
Arguments Ok {A} a.
Arguments Throw {A} e.

#[global] Instance Result_ret : MRet Result := fun _ a => Ok a.
#[global] Instance Result_bind : MBind Result := fun _ _ k r =>
  match r with
  | Ok a => k a
  | Throw e => Throw e
  end.

(** [v === undefined || v === null] *)
Definition is_nullish (v : JsVal) : bool :=
  match v with
  | JUndef | JNull => true
  | _ => false
  end.

(** ToBoolean *)
Definition toBoolean (v : JsVal) : bool :=
  match v with
  | JUndef | JNull => false
  | JBool b => b
  | JNum n => negb (n =? 0)%Z
  | JStr s => negb (String.eqb s "")
  | JArr _ | JObj _ | JHost _ => true
  end.

(** [a || b] *)
Definition js_or (a b : JsVal) : JsVal := if toBoolean a then a else b.

(** The host's built-in objects. [inherited v p] is what reading [p] on [v]
    yields when [v] has no own property [p]: the value found along the
    prototype chain of [v] ([Object.prototype], [String.prototype], ...),
    or [JUndef]; every property of a host object is read through it.
    [throws id p] says that reading [p] on the host object [id] runs an
    accessor that throws a [TypeError], as [caller] and [arguments] do on
    a built-in function. *)
Class Realm := {
  inherited : JsVal -> string -> JsVal;
  throws : nat -> string -> bool;
}.

(** A realm whose prototype objects are empty. *)
Definition bare_realm : Realm :=
  {| inherited := fun _ _ => JUndef; throws := fun _ _ => false |}.

(** A realm with a fragment of the standard prototypes: every object
    inherits [constructor] and [toString], strings also [charAt]; these
    three are built-in functions, on which [caller] and [arguments]
    throw. *)
Definition sample_realm : Realm :=
  {| throws := fun _ p => String.eqb p "caller" || String.eqb p "arguments";
     inherited := fun v p =>
       match v with
       | JUndef | JNull => JUndef
       | JStr _ =>
           if String.eqb p "charAt" then JHost 2
           else if String.eqb p "toString" then JHost 1
           else if String.eqb p "constructor" then JHost 0
           else JUndef
       | _ =>
           if String.eqb p "toString" then JHost 1
           else if String.eqb p "constructor" then JHost 0
           else JUndef
       end |}.

Section PropertyAccess.
Context `{Realm}.

(** [obj[p]] for an ordinary object with own properties [props] *)
Definition obj_get (props : gmap string JsVal) (p : string) : JsVal :=
  match props !! p with
  | Some v => v
  | None => inherited (JObj props) p
  end.

(** The own properties of a string value: [length] and the code units. *)
Definition str_own (s : string) (p : string) : option JsVal :=
  if String.eqb p "length" then Some (JNum (Z.of_nat (String.length s)))
  else match JsString.array_index p with
       | Some i =>
           match String.get i s with
           | Some c => Some (JStr (String c ""))
           | None => None
           end
       | None => None
       end.

(** The own properties of an array: [length] and the elements. *)
Definition arr_own (elems : list JsVal) (p : string) : option JsVal :=
  if String.eqb p "length" then Some (JNum (Z.of_nat (List.length elems)))
  else match JsString.array_index p with
       | Some i => elems !! i
       | None => None
       end.

(** [value[part]] *)
Definition get (value : JsVal) (part : string) : Result JsVal :=
  match value with
  | JUndef | JNull => Throw TypeError
  | JObj props => Ok (obj_get props part)
  | JStr s => Ok (default (inherited value part) (str_own s part))
  | JArr elems => Ok (default (inherited value part) (arr_own elems part))
  | JHost id => if throws id part then Throw TypeError else Ok (inherited value part)
  | JBool _ | JNum _ => Ok (inherited value part)
  end.

(** The loop of [getValue]: one property read per path segment, leaving
    with [undefined] as soon as the current value is nullish. *)
Fixpoint getValue_loop (value : JsVal) (keys : list string) : Result JsVal :=
  match keys with
  | [] => Ok value
  | part :: rest =>
      if is_nullish value then Ok JUndef
      else value' ← get value part; getValue_loop value' rest
  end.

Definition getValue (d : JsVal) (k : string) : Result JsVal :=
  getValue_loop d (JsString.split "." k).

(** The two dictionaries [t] consults. *)
Definition dict (translations : gmap string JsVal) (locale : string) : JsVal :=
  js_or (js_or (obj_get translations locale) (obj_get translations "en-US")) (JObj ∅).

Definition enDict (translations : gmap string JsVal) : JsVal :=
  js_or (obj_get translations "en-US") (JObj ∅).

(** [t(key, locale = defaultLocale)], closed over [translations] and the
    resolved default locale. [None] is an omitted [locale] argument. *)
Definition t (translations : gmap string JsVal) (defaultLocale : string)
    (key : string) (locale : option string) : Result JsVal :=
  let locale := default defaultLocale locale in
  value ← getValue (dict translations locale) key;
  if negb (is_nullish value) then Ok value
  else if negb (String.eqb locale "en-US") then
    enValue ← getValue (enDict translations) key;
    if negb (is_nullish enValue) then Ok enValue else Ok (JStr key)
  else Ok (JStr key).

End PropertyAccess.

(** ** The data model of the configuration *)

(** [string | null] as the logo reference has it. *)
Inductive LogoUrl : Type :=
| LogoNull
| LogoStr (url : string).

(** [BrandConfig]. A field that is [None] is [undefined] (omitted). *)
Record BrandConfig : Type := {
  name : option string;
  tagline : option string;
  logoUrl : option LogoUrl;
  primaryColor : option string;
  secondaryColor : option string;
  tertiaryColor : option string;
}.

Record Currency : Type := {
  currency_code : string;
  currency_flag : string;
  currency_name : string;
  currency_symbol : string;
}.

Record Language : Type := {
  language_code : string;
  language_flag : string;
  language_name : string;
}.

Record PricingEntry : Type := {
  price : string;
  pricing_symbol : string;
}.

(** The resolved regional settings. *)
Record RegionalConfig : Type := {
  defaultCurrency : string;
  defaultLocale : string;
}.

Module Options.
(** The [regional] option: both fields optional. *)
Record Regional : Type := {
  defaultCurrency : option string;
  defaultLocale : option string;
}.

(** [BrandModuleOptions]: every field optional. *)
Record BrandModuleOptions : Type := {
  brand : option BrandConfig;
  regional : option Regional;
  currencies : option (list Currency);
  languages : option (list Language);
  marketingLanguages : option (list Language);
  pricingMap : option (gmap string PricingEntry);
  translations : option (gmap string JsVal);
  customConfig : option (gmap string JsVal);
}.
End Options.
Abbreviation BrandModuleOptions := Options.BrandModuleOptions.

(** [createBrandConfig()] and [createBrandConfig({})] *)
Definition no_options : BrandModuleOptions :=
  {| Options.brand := None; Options.regional := None; Options.currencies := None;
     Options.languages := None; Options.marketingLanguages := None;
     Options.pricingMap := None; Options.translations := None;
     Options.customConfig := None |}.

(** [{}] where a [BrandConfig] is expected *)
Definition empty_brand : BrandConfig :=
  {| name := None; tagline := None; logoUrl := None; primaryColor := None;
     secondaryColor := None; tertiaryColor := None |}.

Definition empty_regional : Options.Regional :=
  {| Options.defaultCurrency := None; Options.defaultLocale := None |}.

Definition DEFAULT_BRAND : BrandConfig :=
  {| name := Some "MyApp";
     tagline := Some "Your Application";
     logoUrl := Some LogoNull;
     primaryColor := Some "#4f46e5";
     secondaryColor := Some "#10b981";
     tertiaryColor := Some "#f59e0b" |}.

Definition DEFAULT_CURRENCIES : list Currency :=
  [ {| currency_code := "USD"; currency_flag := "🇺🇸"; currency_name := "US Dollar"; currency_symbol := "$" |};
    {| currency_code := "EUR"; currency_flag := "🇪🇺"; currency_name := "Euro"; currency_symbol := "€" |};
    {| currency_code := "GBP"; currency_flag := "🇬🇧"; currency_name := "British Pound"; currency_symbol := "£" |};
    {| currency_code := "JPY"; currency_flag := "🇯🇵"; currency_name := "Japanese Yen"; currency_symbol := "¥" |};
    {| currency_code := "INR"; currency_flag := "🇮🇳"; currency_name := "Indian Rupee"; currency_symbol := "₹" |};
    {| currency_code := "SGD"; currency_flag := "🇸🇬"; currency_name := "Singapore Dollar"; currency_symbol := "$" |};
    {| currency_code := "AUD"; currency_flag := "🇦🇺"; currency_name := "Australian Dollar"; currency_symbol := "$" |};
    {| currency_code := "CAD"; currency_flag := "🇨🇦"; currency_name := "Canadian Dollar"; currency_symbol := "$" |};
    {| currency_code := "SEK"; currency_flag := "🇸🇪"; currency_name := "Swedish Krona"; currency_symbol := "kr" |} ].

Definition DEFAULT_LANGUAGES : list Language :=
  [ {| language_code := "en-US"; language_flag := "🇺🇸"; language_name := "English (US)" |};
    {| language_code := "es-ES"; language_flag := "🇪🇸"; language_name := "Spanish" |};
    {| language_code := "fr-FR"; language_flag := "🇫🇷"; language_name := "French" |} ].

(** ** Operators of the assembler *)

(** [a || b] on [string | undefined]: the empty string and [undefined]
    are the falsy values. *)
Definition str_or (a b : option string) : option string :=
  match a with
  | Some s => if String.eqb s "" then b else a
  | None => b
  end.

(** [a || d] where [d] is a string constant *)
Definition str_or_else (a : option string) (d : string) : string :=
  match a with
  | Some s => if String.eqb s "" then d else s
  | None => d
  end.

(** [e || d] where [e] is an environment variable and [d] a logo reference *)
Definition logo_or (e : option string) (d : option LogoUrl) : option LogoUrl :=
  match e with
  | Some s => if String.eqb s "" then d else Some (LogoStr s)
  | None => d
  end.

(** [new Set(items)], as the list of its elements in insertion order:
    [add] appends a value that is not yet in the set. *)
Definition Set_add (seen : list string) (x : string) : list string :=
  if bool_decide (x ∈ seen) then seen else (seen ++ [x])%list.

Definition Set_from (items : list string) : list string :=
  foldl Set_add [] items.

(** A property definition of an object literal, and the literal itself:
    a later definition of the same key replaces the earlier value. *)
Definition define (o : gmap string JsVal) (kv : string * JsVal) : gmap string JsVal :=
  <[kv.1 := kv.2]> o.

Definition object_literal (entries : list (string * JsVal)) : gmap string JsVal :=
  foldl define ∅ entries.

(** [{...target, ...source}]: every own property of [source] is defined
    on [target]. *)
Definition spread (source target : gmap string JsVal) : gmap string JsVal :=
  map_fold (fun k v o => <[k := v]> o) target source.

(** ** The values the aggregate holds *)

Definition js_of_string (s : option string) : JsVal :=
  match s with
  | Some s => JStr s
  | None => JUndef
  end.

Definition js_of_logo (l : option LogoUrl) : JsVal :=
  match l with
  | Some (LogoStr s) => JStr s
  | Some LogoNull => JNull
  | None => JUndef
  end.

Definition js_of_brand (b : BrandConfig) : JsVal :=
  JObj (object_literal
    [ ("name", js_of_string (name b));
      ("tagline", js_of_string (tagline b));
      ("logoUrl", js_of_logo (logoUrl b));
      ("primaryColor", js_of_string (primaryColor b));
      ("secondaryColor", js_of_string (secondaryColor b));
      ("tertiaryColor", js_of_string (tertiaryColor b)) ]).

Definition js_of_regional (r : RegionalConfig) : JsVal :=
  JObj (object_literal
    [ ("defaultCurrency", JStr (defaultCurrency r));
      ("defaultLocale", JStr (defaultLocale r)) ]).

Definition js_of_currency (c : Currency) : JsVal :=
  JObj (object_literal
    [ ("code", JStr (currency_code c)); ("flag", JStr (currency_flag c));
      ("name", JStr (currency_name c)); ("symbol", JStr (currency_symbol c)) ]).

Definition js_of_language (l : Language) : JsVal :=
  JObj (object_literal
    [ ("code", JStr (language_code l)); ("flag", JStr (language_flag l));
      ("name", JStr (language_name l)) ]).

Definition js_of_pricing (e : PricingEntry) : JsVal :=
  JObj (object_literal
    [ ("price", JStr (price e)); ("symbol", JStr (pricing_symbol e)) ]).

(** ** The ambient cookie store *)

(** Modelled from the spec: the ambient cookie store behind
    [document.cookie] belongs to the browser, not to the repository. The
    spec fixes its wire format: entries [name=value], joined by ["; "] when
    read, and a write of [name=value; attribute; ...] that sets the cookie
    of that name. One path and one domain are modelled, with no expiry and
    no limit on size: a store that holds a cookie of the same name under
    another path or domain, a value with control characters, or a [Domain]
    attribute that the store refuses, is not described by it; the
    properties of what is read back after a write state the condition on
    the store and on the value written under which they are meant. *)
Record Cookie : Type := {
  cookie_name : string;
  cookie_value : string;
  cookie_attributes : list string;
}.

Record Document : Type := { cookies : list Cookie }.

Definition cookie_row (c : Cookie) : string :=
  cookie_name c +:+ "=" +:+ cookie_value c.

(** reading [document.cookie] *)
Definition read_cookie (d : Document) : string :=
  JsString.join "; " (cookie_row <$> cookies d).

(** The cookie a written string denotes: the text before the first [;] is
    the name-value pair, cut at its first [=]; the rest are attributes. A
    string with no [=] in its pair, or with an empty name, names no cookie.
    The attributes are kept as written: none is interpreted, and none
    makes the store refuse the cookie. *)
Definition parse_cookie (s : string) : option Cookie :=
  let '(nv, attributes) :=
    match JsString.cut ";" s with
    | Some (p, rest) => (p, JsString.split ";" rest)
    | None => (s, [])
    end in
  match JsString.cut "=" nv with
  | Some (n, v) =>
      if String.eqb (JsString.trim n) "" then None
      else Some {| cookie_name := JsString.trim n;
                   cookie_value := JsString.trim v;
                   cookie_attributes := JsString.trim <$> attributes |}
  | None => None
  end.

(** A cookie replaces the stored cookie of its name, or is added last.
    Cookies are told apart by their name alone, as a store does whose
    cookies of one name all have the same path and domain. *)
Fixpoint store_cookie (c : Cookie) (jar : list Cookie) : list Cookie :=
  match jar with
  | [] => [c]
  | c' :: jar' =>
      if String.eqb (cookie_name c') (cookie_name c) then c :: jar'
      else c' :: store_cookie c jar'
  end.

(** [document.cookie = s] *)
Definition write_cookie (s : string) (d : Document) : Document :=
  match parse_cookie s with
  | Some c => {| cookies := store_cookie c (cookies d) |}
  | None => d
  end.

(** ** The factory *)

Definition brandConfig (env : gmap string string) (brand : BrandConfig) : BrandConfig :=
  {| name := str_or (str_or (name brand) (env !! "NEXT_PUBLIC_APP_NAME")) (name DEFAULT_BRAND);
     tagline := str_or (str_or (tagline brand) (env !! "NEXT_PUBLIC_APP_TAGLINE")) (tagline DEFAULT_BRAND);
     logoUrl :=
       match logoUrl brand with
       | Some l => Some l
       | None => logo_or (env !! "NEXT_PUBLIC_APP_LOGO_URL") (logoUrl DEFAULT_BRAND)
       end;
     primaryColor :=
       str_or (str_or (primaryColor brand) (env !! "NEXT_PUBLIC_PRIMARY_COLOR")) (primaryColor DEFAULT_BRAND);
     secondaryColor :=
       str_or (str_or (secondaryColor brand) (env !! "NEXT_PUBLIC_SECONDARY_COLOR")) (secondaryColor DEFAULT_BRAND);
     tertiaryColor :=
       str_or (str_or (tertiaryColor brand) (env !! "NEXT_PUBLIC_TERTIARY_COLOR")) (tertiaryColor DEFAULT_BRAND) |}.

Definition regionalConfig (env : gmap string string) (regional : Options.Regional) : RegionalConfig :=
  {| defaultCurrency :=
       str_or_else (str_or (Options.defaultCurrency regional) (env !! "NEXT_PUBLIC_DEFAULT_CURRENCY")) "USD";
     defaultLocale :=
       str_or_else (str_or (Options.defaultLocale regional) (env !! "NEXT_PUBLIC_DEFAULT_LOCALE")) "en-US" |}.

Definition supportedLocales (languages marketingLanguages : list Language) : list string :=
  Set_from ((language_code <$> languages) ++ (language_code <$> marketingLanguages))%list.

(** The fixed part of [CONFIG], before the custom entries are spread. *)
Definition built_in (brandConfig : BrandConfig) (regionalConfig : RegionalConfig)
    (currencies : list Currency) (languages marketingLanguages : list Language)
    (pricingMap : gmap string PricingEntry) (supportedLocales : list string)
    : list (string * JsVal) :=
  [ ("brand", js_of_brand brandConfig);
    ("regional", js_of_regional regionalConfig);
    ("currencies", JArr (js_of_currency <$> currencies));
    ("languages", JArr (js_of_language <$> languages));
    ("marketingLanguages", JArr (js_of_language <$> marketingLanguages));
    ("PRICING_MAP", JObj (js_of_pricing <$> pricingMap));
    ("i18n", JObj (object_literal
       [ ("enabled", JBool true);
         ("supportedLocales", JArr (JStr <$> supportedLocales)) ])) ].

(** [typeof document === 'undefined']; the ambient document is [None] when
    there is none. *)
Definition document_undefined (document : option Document) : bool :=
  match document with
  | None => true
  | Some _ => false
  end.

(** Evaluating the identifier [document]. *)
Definition the_document (document : option Document) : Result Document :=
  match document with
  | Some d => Ok d
  | None => Throw ReferenceError
  end.

(** [setLocaleCookie(locale)], on the ambient document; the result is the
    ambient document after the call. *)
Definition setLocaleCookie (locale : string) (document : option Document)
    : Result (option Document) :=
  if document_undefined document then Ok document
  else
    d ← the_document document;
    Ok (Some (write_cookie
                ("NEXT_LOCALE=" +:+ locale +:+ "; path=/; max-age=31536000; SameSite=Lax") d)).

(** [getLocaleCookie()] *)
Definition getLocaleCookie (document : option Document) : Result JsVal :=
  if document_undefined document then Ok JNull
  else
    d ← the_document document;
    let cookies := JsString.split "; " (read_cookie d) in
    let localeCookie := List.find (JsString.startsWith "NEXT_LOCALE=") cookies in
    match localeCookie with
    | Some row =>
        if String.eqb row "" then Ok JNull
        else match JsString.split "=" row !! 1%nat with
             | Some v => Ok (JStr v)
             | None => Ok JUndef
             end
    | None => Ok JNull
    end.

Module BrandModule.
(** What [createBrandConfig] returns. *)
Record BrandModule : Type := {
  CONFIG : gmap string JsVal;
  t : string -> option string -> Result JsVal;
  setLocaleCookie : string -> option Document -> Result (option Document);
  getLocaleCookie : option Document -> Result JsVal;
}.
End BrandModule.
Abbreviation BrandModule := BrandModule.BrandModule.

Section Factory.
Context `{Realm}.

Definition createBrandConfig (env : gmap string string) (options : BrandModuleOptions)
    : BrandModule :=
  let brand := default empty_brand (Options.brand options) in
  let regional := default empty_regional (Options.regional options) in
  let currencies := default DEFAULT_CURRENCIES (Options.currencies options) in
  let languages := default DEFAULT_LANGUAGES (Options.languages options) in
  let marketingLanguages := default DEFAULT_LANGUAGES (Options.marketingLanguages options) in
  let pricingMap := default ∅ (Options.pricingMap options) in
  let translations := default ∅ (Options.translations options) in
  let customConfig := default ∅ (Options.customConfig options) in
  let brandConfig := brandConfig env brand in
  let regionalConfig := regionalConfig env regional in
  let supportedLocales := supportedLocales languages marketingLanguages in
  let CONFIG :=
    spread customConfig
      (object_literal
         (built_in brandConfig regionalConfig currencies languages marketingLanguages
            pricingMap supportedLocales)) in
  {| BrandModule.CONFIG := CONFIG;
     BrandModule.t := fun key locale => t translations (defaultLocale regionalConfig) key locale;
     BrandModule.setLocaleCookie := setLocaleCookie;
     BrandModule.getLocaleCookie := getLocaleCookie |}.

End Factory.

(** ** Vocabulary of the specification *)

(** The first entry of a list of sources that is present and non-empty. *)
Fixpoint first_nonempty (sources : list (option string)) : option string :=
  match sources with
  | [] => None
  | Some s :: rest => if String.eqb s "" then first_nonempty rest else Some s
  | None :: rest => first_nonempty rest
  end.

(** A list without its repeated entries, each kept where it first occurs. *)
Fixpoint dedup (l : list string) : list string :=
  match l with
  | [] => []
  | x :: rest => x :: filter (fun y => y ≠ x) (dedup rest)
  end.

(** The value at the end of a path of own properties through nested
    dictionaries, if every segment exists. *)
Fixpoint own_lookup (v : JsVal) (segments : list string) : option JsVal :=
  match segments with
  | [] => Some v
  | seg :: rest =>
      match v with
      | JObj props =>
          match props !! seg with
          | Some child => own_lookup child rest
          | None => None
          end
      | _ => None
      end
  end.






(** A value of printable characters other than [;]: the store keeps it
    as it is written. *)
Definition plain_value_char (c : ascii) : bool :=
  let n := nat_of_ascii c in
  ((33 <=? n) && (n <=? 126) && negb (n =? 59))%nat.

Fixpoint plain_value (s : string) : bool :=
  match s with
  | "" => true
  | String c s' => plain_value_char c && plain_value s'
  end.

(** The attributes [setLocaleCookie] writes. *)
Definition locale_attributes : list string :=
  ["path=/"; "max-age=31536000"; "SameSite=Lax"].

(** The store holds no cookie named [NEXT_LOCALE] but one written by
    [setLocaleCookie]: none under another path or domain. *)
Definition only_own_locale_cookie (d : Document) : Prop :=
  Forall (fun c => cookie_name c = "NEXT_LOCALE" -> cookie_attributes c = locale_attributes)
    (cookies d).

(** The unreserved characters of a URL: letters, digits, [-], [.], [_], [~]. *)
Definition url_safe_char (c : ascii) : bool :=
  let n := nat_of_ascii c in
  ((65 <=? n) && (n <=? 90) || (97 <=? n) && (n <=? 122) || (48 <=? n) && (n <=? 57)
   || (n =? 45) || (n =? 46) || (n =? 95) || (n =? 126))%nat.

Fixpoint url_safe (s : string) : bool :=
  match s with
  | "" => true
  | String c s' => url_safe_char c && url_safe s'
  end.

(** What the store guarantees of its cookies: a name holds no [;] and no
    [=], a value no [;], and no two cookies share a name. *)
Definition cookie_ok (c : Cookie) : Prop :=
  JsString.has_char ";" (cookie_name c) = false /\
  JsString.has_char "=" (cookie_name c) = false /\
  JsString.has_char ";" (cookie_value c) = false.

Definition store_ok (d : Document) : Prop :=
  Forall cookie_ok (cookies d) /\ NoDup (cookie_name <$> cookies d).

(** The same options with no [customConfig]. *)
Definition without_custom (options : BrandModuleOptions) : BrandModuleOptions :=
  {| Options.brand := Options.brand options;
     Options.regional := Options.regional options;
     Options.currencies := Options.currencies options;
     Options.languages := Options.languages options;
     Options.marketingLanguages := Options.marketingLanguages options;
     Options.pricingMap := Options.pricingMap options;
     Options.translations := Options.translations options;
     Options.customConfig := None |}.

(** The keys of [CONFIG] that the factory itself defines. *)
Definition built_in_keys : gset string :=
  {[ "brand"; "regional"; "currencies"; "languages"; "marketingLanguages";
     "PRICING_MAP"; "i18n" ]}.

(** [{enabled: true, supportedLocales}] *)
Definition js_of_i18n (supportedLocales : list string) : JsVal :=
  JObj (object_literal
    [ ("enabled", JBool true); ("supportedLocales", JArr (JStr <$> supportedLocales)) ]).

(** A field that holds a non-empty string. *)
Definition present (field : option string) : Prop :=
  exists s, field = Some s /\ s <> "".

(** The number of occurrences of [c] in [s]. *)
Fixpoint count_char (c : ascii) (s : string) : nat :=
  match s with
  | "" => 0%nat
  | String a s' => ((if Ascii.eqb a c then 1 else 0) + count_char c s')%nat
  end.

(** The cookie that a write of [NEXT_LOCALE=<locale>; path=/; ...] stores. *)
Definition locale_cookie (locale : string) : Cookie :=
  {| cookie_name := "NEXT_LOCALE"; cookie_value := locale;
     cookie_attributes := ["path=/"; "max-age=31536000"; "SameSite=Lax"] |}.

(** The codes of a list of languages. *)
Definition codes (languages : list Language) : list string :=
  language_code <$> languages.

(** ** Sample inputs *)

(** [{a: {b: {c: "X"}}}] *)
Definition nested_abc : gmap string JsVal :=
  {[ "a" := JObj {[ "b" := JObj {[ "c" := JStr "X" ]} ]} ]}.

(** [{"en-US": {a: "hi"}, "fr-FR": {}}] *)
Definition hi_translations : gmap string JsVal :=
  {[ "en-US" := JObj {[ "a" := JStr "hi" ]}; "fr-FR" := JObj ∅ ]}.

(** A store holding [theme=dark; NEXT_LOCALE=en-US]. *)
Definition sample_document : Document :=
  {| cookies :=
       [ {| cookie_name := "theme"; cookie_value := "dark"; cookie_attributes := [] |};
         {| cookie_name := "NEXT_LOCALE"; cookie_value := "en-US";
            cookie_attributes := ["path=/"] |} ] |}.

(** A store holding [theme=dark] and a [NEXT_LOCALE=en-US] that
    [setLocaleCookie] wrote. *)
Definition visited_document : Document :=
  {| cookies :=
       [ {| cookie_name := "theme"; cookie_value := "dark"; cookie_attributes := [] |};
         {| cookie_name := "NEXT_LOCALE"; cookie_value := "en-US";
            cookie_attributes := ["path=/"; "max-age=31536000"; "SameSite=Lax"] |} ] |}.


(** A store holding [theme=dark; NEXT_LOCALE=]. *)
Definition empty_locale_document : Document :=
  {| cookies :=
       [ {| cookie_name := "theme"; cookie_value := "dark"; cookie_attributes := [] |};
         {| cookie_name := "NEXT_LOCALE"; cookie_value := ""; cookie_attributes := [] |} ] |}.

(** Options that supply one dashboard language and nothing else. *)
Definition german_dashboard : BrandModuleOptions :=
  {| Options.brand := None; Options.regional := None; Options.currencies := None;
     Options.languages :=
       Some [ {| language_code := "de-DE"; language_flag := ""; language_name := "Deutsch" |} ];
     Options.marketingLanguages := None;
     Options.pricingMap := None; Options.translations := None;
     Options.customConfig := None |}.

(** [{items: ["one", "two"], title: "hi"}] *)
Definition items_dictionary : JsVal :=
  JObj {[ "items" := JArr [JStr "one"; JStr "two"]; "title" := JStr "hi" ]}.

(** * Properties *)

(** ** Strings *)

Example split_dotted : JsString.split "." "a.b.c" = ["a"; "b"; "c"].
Proof. reflexivity. Qed.

Example split_empty : JsString.split "." "" = [""].
Proof. reflexivity. Qed.

Example split_two_units :
  JsString.split "; " "a=1; NEXT_LOCALE=fr-FR; b=;x" = ["a=1"; "NEXT_LOCALE=fr-FR"; "b=;x"].
Proof. reflexivity. Qed.

Example trim_both : JsString.trim "  a b " = "a b".
Proof. reflexivity. Qed.

Example array_index_examples :
  JsString.array_index "0" = Some 0%nat /\ JsString.array_index "12" = Some 12%nat /\
  JsString.array_index "01" = None /\ JsString.array_index "length" = None.
Proof. repeat split; reflexivity. Qed.

#[local] Arguments String.append !_ _ / : simpl nomatch.

Module JsStringFacts.
Import JsString.

Lemma append_assoc (a b c : string) : (a +:+ b) +:+ c = a +:+ (b +:+ c).
Proof. induction a as [|x a IH]; simpl; [done | by rewrite IH]. Qed.

Lemma has_char_app (c : ascii) (a b : string) :
  has_char c (a +:+ b) = has_char c a || has_char c b.
Proof.
  induction a as [|x a IH]; simpl; [done |].
  rewrite IH. by rewrite orb_assoc.
Qed.

Lemma prefix_refl_app (a b : string) : String.prefix a (a +:+ b) = true.
Proof.
  induction a as [|x a IH]; simpl; [by destruct b |].
  destruct (ascii_dec x x); [exact IH | done].
Qed.

Lemma prefix_head_ne (c x : ascii) (sep' s : string) :
  Ascii.eqb x c = false -> String.prefix (String c sep') (String x s) = false.
Proof.
  intros Hne. simpl. destruct (ascii_dec c x) as [->|]; [| done].
  by rewrite Ascii.eqb_refl in Hne.
Qed.

(** Passing over the rest of a matched separator. *)
Lemma split_from_skip (sep a s : string) :
  split_from sep (String.length a) (a +:+ s) = split_from sep 0 s.
Proof. induction a as [|x a IH]; simpl; [by destruct s | exact IH]. Qed.

Section OneSeparator.
Variables (c : ascii) (sep' : string).
Local Abbreviation sep := (String c sep').

(** A piece that holds no first unit of the separator is returned whole. *)
Lemma split_piece (r : string) :
  has_char c r = false -> split sep r = [r].
Proof.
  unfold split. induction r as [|x r IH]; [done |].
  cbn [has_char]. intros [Hx Hr]%orb_false_elim.
  cbn [split_from]. rewrite (prefix_head_ne c x sep' r Hx).
  by rewrite (IH Hr).
Qed.

Lemma split_piece_sep (r rest : string) :
  has_char c r = false ->
  split sep (r +:+ sep +:+ rest) = r :: split sep rest.
Proof.
  unfold split. induction r as [|x r IH].
  - intros _. change ("" +:+ sep +:+ rest) with (String c (sep' +:+ rest)).
    cbn [split_from].
    change (String c (sep' +:+ rest)) with (sep +:+ rest).
    rewrite prefix_refl_app. cbn [String.length Nat.pred].
    by rewrite split_from_skip.
  - cbn [has_char]. intros [Hx Hr]%orb_false_elim.
    change (String x r +:+ sep +:+ rest) with (String x (r +:+ sep +:+ rest)).
    cbn [split_from]. rewrite (prefix_head_ne c x sep' _ Hx).
    by rewrite (IH Hr).
Qed.

(** [split] undoes [join] on pieces free of the separator's first unit. *)
Lemma split_join (rows : list string) :
  rows <> [] ->
  Forall (fun r => has_char c r = false) rows ->
  split sep (join sep rows) = rows.
Proof.
  induction rows as [|r rows IH]; [done |].
  intros _ Hall. apply Forall_cons in Hall as [Hr Hrows].
  destruct rows as [|r' rows].
  - simpl. by apply split_piece.
  - change (join sep (r :: r' :: rows)) with (r +:+ sep +:+ join sep (r' :: rows)).
    rewrite split_piece_sep by done. f_equal. by apply IH.
Qed.
End OneSeparator.

Lemma prefix_char (c x : ascii) (s : string) :
  String.prefix (String c "") (String x s) = Ascii.eqb x c.
Proof.
  simpl. destruct (ascii_dec c x) as [->|Hne].
  - rewrite Ascii.eqb_refl. by destruct s.
  - symmetry. apply Ascii.eqb_neq. congruence.
Qed.

(** One step of the scan for a separator of one unit. *)
Lemma split_char_step (c x : ascii) (s : string) :
  split (String c "") (String x s) =
    if Ascii.eqb x c then "" :: split (String c "") s
    else cons_head x (split (String c "") s).
Proof. unfold split. cbn [split_from]. by rewrite prefix_char. Qed.

Lemma split_from_nonempty (sep : string) (k : nat) (s : string) :
  split_from sep k s <> [].
Proof.
  revert k. induction s as [|x s IH]; intros k; [done |].
  cbn [split_from]. destruct k as [|k]; [| apply IH].
  destruct (String.prefix sep (String x s)); [done |].
  specialize (IH 0%nat). by destruct (split_from sep 0 s).
Qed.

Lemma cons_head_app (x : ascii) (l1 l2 : list string) :
  l1 <> [] -> cons_head x (l1 ++ l2)%list = (cons_head x l1 ++ l2)%list.
Proof. by destruct l1. Qed.

(** Splitting at a unit distributes over a key cut at that unit. *)
Lemma split_char_app (c : ascii) (a b : string) :
  split (String c "") (a +:+ String c b) =
    (split (String c "") a ++ split (String c "") b)%list.
Proof.
  induction a as [|x a IH].
  - change ("" +:+ String c b) with (String c b).
    rewrite split_char_step, Ascii.eqb_refl. done.
  - change (String x a +:+ String c b) with (String x (a +:+ String c b)).
    rewrite !split_char_step, IH. destruct (Ascii.eqb x c); [done |].
    apply cons_head_app, split_from_nonempty.
Qed.

End JsStringFacts.

(** ** Property reads and the traversal *)

Section Traversal.
Context `{Realm}.

Lemma getValue_loop_nullish (v : JsVal) (keys : list string) :
  is_nullish v = true -> keys <> [] -> getValue_loop v keys = Ok JUndef.
Proof. intros Hv Hk. destruct keys; [done |]. cbn [getValue_loop]. by rewrite Hv. Qed.

(** The traversal of a concatenated path is the traversal of its second
    part from where the first part ends. *)
Lemma getValue_loop_app (k1 k2 : list string) (v : JsVal) :
  k2 <> [] ->
  getValue_loop v (k1 ++ k2)%list = (w ← getValue_loop v k1; getValue_loop w k2).
Proof.
  intros Hk2. revert v. induction k1 as [|part rest IH]; intros v; [done |].
  cbn [getValue_loop app]. destruct (is_nullish v) eqn:Hv.
  - cbn. by rewrite getValue_loop_nullish.
  - destruct (get v part) as [w|e]; cbn; [apply IH | done].
Qed.

Lemma getValue_dot (d : JsVal) (k1 k2 : string) :
  getValue d (k1 +:+ "." +:+ k2) = (w ← getValue d k1; getValue w k2).
Proof.
  unfold getValue. change ("." +:+ k2) with (String "." k2).
  rewrite JsStringFacts.split_char_app.
  apply getValue_loop_app, JsStringFacts.split_from_nonempty.
Qed.

(** A path of own properties is the path the traversal takes. *)
Lemma getValue_loop_own (segments : list string) (v leaf : JsVal) :
  own_lookup v segments = Some leaf -> getValue_loop v segments = Ok leaf.
Proof.
  revert v. induction segments as [|seg rest IH]; intros v; cbn [own_lookup getValue_loop].
  - by intros [= ->].
  - destruct v as [| | | | | |props|]; try done.
    destruct (props !! seg) as [child|] eqn:Hseg; [| done].
    intros Hrest. cbn. unfold obj_get. rewrite Hseg. by apply IH.
Qed.

End Traversal.

(** ** The translation lookup *)

Section Lookup.
Context `{Realm}.






(** C4. When every segment of a dotted key exists along a path of nested
    dictionaries of the selected locale and the path ends at a non-null
    leaf, [t] returns that leaf. *)
Theorem t_returns_nested_leaf (translations : gmap string JsVal)
    (defaultLocale : string) (locale : option string)
    (d : gmap string JsVal) (segments : list string) (leaf : JsVal) :
  translations !! default defaultLocale locale = Some (JObj d) ->
  segments <> [] ->
  Forall (fun seg => JsString.has_char "." seg = false) segments ->
  own_lookup (JObj d) segments = Some leaf ->
  is_nullish leaf = false ->
  JsString.split "." (JsString.join "." segments) = segments /\
  t translations defaultLocale (JsString.join "." segments) locale = Ok leaf.
Proof.
  intros Hsel Hne Hdots Hpath Hleaf.
  assert (Hsplit : JsString.split "." (JsString.join "." segments) = segments)
    by (by apply JsStringFacts.split_join).
  split; [done |]. unfold t, getValue. rewrite Hsplit.
  assert (Hdict : dict translations (default defaultLocale locale) = JObj d).
  { unfold dict, js_or, obj_get. by rewrite Hsel. }
  rewrite Hdict, (getValue_loop_own _ _ _ Hpath). cbn. by rewrite Hleaf.
Qed.


End Lookup.

Example t_spec_examples :
  @t sample_realm {[ "en-US" := JObj nested_abc ]} "en-US" "a.b.c" None = Ok (JStr "X") /\
  @t sample_realm hi_translations "en-US" "a" (Some "fr-FR") = Ok (JStr "hi") /\
  @t sample_realm hi_translations "en-US" "b" (Some "fr-FR") = Ok (JStr "b").
Proof. repeat split; reflexivity. Qed.

(** A key that names an inherited property of a dictionary resolves to it. *)
Example t_reads_inherited_property :
  @t sample_realm ∅ "en-US" "toString" None = Ok (JHost 1) /\
  @t bare_realm ∅ "en-US" "toString" None = Ok (JStr "toString").
Proof. split; reflexivity. Qed.





Lemma t_returns_nested_leaf_witness :
  @t sample_realm {[ "fr-FR" := JObj nested_abc ]} "fr-FR" "a.b.c" None = Ok (JStr "X").
Proof.
  refine (proj2 (@t_returns_nested_leaf sample_realm {[ "fr-FR" := JObj nested_abc ]}
                   "fr-FR" None nested_abc ["a"; "b"; "c"] (JStr "X") _ _ _ _ _)).
  - reflexivity.
  - discriminate.
  - repeat constructor.
  - reflexivity.
  - reflexivity.
Defined.



(** ** The assembler *)

Lemma spread_union (source target : gmap string JsVal) :
  spread source target = source ∪ target.
Proof.
  unfold spread. induction source as [|k v source Hk Hfold IH] using map_first_key_ind.
  - by rewrite map_fold_empty, (left_id_L ∅ (∪)).
  - rewrite map_fold_insert_first_key by done. rewrite IH. apply insert_union_l.
Qed.

Lemma spread_lookup (source target : gmap string JsVal) (k : string) :
  spread source target !! k = from_option Some (target !! k) (source !! k).
Proof.
  rewrite spread_union, lookup_union.
  by destruct (source !! k), (target !! k).
Qed.

Lemma first_nonempty_chain (a b : option string) (d : string) :
  d <> "" ->
  str_or (str_or a b) (Some d) = first_nonempty [a; b; Some d] /\
  Some (str_or_else (str_or a b) d) = first_nonempty [a; b; Some d].
Proof.
  intros Hd. apply String.eqb_neq in Hd. unfold str_or, str_or_else. cbn [first_nonempty].
  destruct a as [s|]; [destruct (String.eqb s "") eqn:Hs |];
    rewrite ?Hs; try done;
    (destruct b as [s'|]; [destruct (String.eqb s' "") eqn:Hs' |]);
    rewrite ?Hs', ?Hd; done.
Qed.

(** [dedup] keeps exactly the entries of the list, once each. *)
Lemma elem_of_dedup (l : list string) (x : string) : x ∈ dedup l <-> x ∈ l.
Proof.
  induction l as [|y l IH]; [done |]. cbn [dedup].
  rewrite !elem_of_cons, list_elem_of_filter, IH.
  destruct (decide (x = y)); tauto.
Qed.

Lemma NoDup_dedup (l : list string) : NoDup (dedup l).
Proof.
  induction l as [|y l IH]; cbn [dedup]; [constructor |].
  apply NoDup_cons. split; [| by apply NoDup_filter].
  rewrite list_elem_of_filter. by intros [Hy _].
Qed.

Lemma dedup_app (a b : list string) :
  dedup (a ++ b)%list = (dedup a ++ filter (fun y => y ∉ a) (dedup b))%list.
Proof.
  induction a as [|x a IH].
  - cbn. symmetry. induction (dedup b) as [|y l IHl]; [done |].
    rewrite filter_cons_True by apply not_elem_of_nil. by rewrite IHl.
  - cbn [dedup app]. rewrite IH, filter_app, list_filter_filter. do 2 f_equal.
    apply list_filter_iff. intros y. rewrite not_elem_of_cons. tauto.
Qed.

(** The set built from a list, starting from the entries [seen]. *)
Lemma Set_add_all (l seen : list string) :
  foldl Set_add seen l = (seen ++ filter (fun y => y ∉ seen) (dedup l))%list.
Proof.
  revert seen. induction l as [|x l IH]; intros seen.
  - cbn. by rewrite app_nil_r.
  - cbn [foldl dedup]. rewrite IH. unfold Set_add. case_bool_decide as Hx.
    + rewrite filter_cons_False by tauto. f_equal.
      rewrite list_filter_filter. apply list_filter_iff. intros y.
      split; [intros Hy; split; [done | by intros ->] | by intros [Hy _]].
    + rewrite filter_cons_True by done. rewrite <- app_assoc. cbn [app]. do 2 f_equal.
      rewrite list_filter_filter. apply list_filter_iff. intros y.
      rewrite not_elem_of_app, not_elem_of_cons.
      pose proof (not_elem_of_nil y). tauto.
Qed.

Lemma Set_from_dedup (l : list string) : Set_from l = dedup l.
Proof.
  unfold Set_from. rewrite Set_add_all. cbn [app].
  induction (dedup l) as [|y k IHk]; [done |].
  rewrite filter_cons_True by apply not_elem_of_nil. by rewrite IHk.
Qed.

Section Assembler.
Context `{Realm}.

Lemma CONFIG_lookup (env : gmap string string) (options : BrandModuleOptions) (k : string) :
  BrandModule.CONFIG (createBrandConfig env options) !! k =
    from_option Some
      (BrandModule.CONFIG (createBrandConfig env (without_custom options)) !! k)
      (default ∅ (Options.customConfig options) !! k).
Proof.
  cbn [createBrandConfig BrandModule.CONFIG without_custom Options.customConfig
       Options.brand Options.regional Options.currencies Options.languages
       Options.marketingLanguages Options.pricingMap Options.translations].
  rewrite !spread_lookup. cbn [default]. rewrite lookup_empty. done.
Qed.

(** C1. Each brand string field and each regional field of the aggregate
    is the first of [explicit option, environment variable, built-in
    default] that is present and non-empty; [CONFIG] holds the resolved
    [brand] and [regional] blocks (unless a custom entry of that name
    replaces the block). *)
Theorem fields_resolve_by_precedence (env : gmap string string)
    (options : BrandModuleOptions) :
  let b := default empty_brand (Options.brand options) in
  let r := default empty_regional (Options.regional options) in
  let custom := default ∅ (Options.customConfig options) in
  let CONFIG := BrandModule.CONFIG (createBrandConfig env options) in
  name (brandConfig env b)
    = first_nonempty [name b; env !! "NEXT_PUBLIC_APP_NAME"; Some "MyApp"] /\
  tagline (brandConfig env b)
    = first_nonempty [tagline b; env !! "NEXT_PUBLIC_APP_TAGLINE"; Some "Your Application"] /\
  primaryColor (brandConfig env b)
    = first_nonempty [primaryColor b; env !! "NEXT_PUBLIC_PRIMARY_COLOR"; Some "#4f46e5"] /\
  secondaryColor (brandConfig env b)
    = first_nonempty [secondaryColor b; env !! "NEXT_PUBLIC_SECONDARY_COLOR"; Some "#10b981"] /\
  tertiaryColor (brandConfig env b)
    = first_nonempty [tertiaryColor b; env !! "NEXT_PUBLIC_TERTIARY_COLOR"; Some "#f59e0b"] /\
  Some (defaultCurrency (regionalConfig env r))
    = first_nonempty [Options.defaultCurrency r; env !! "NEXT_PUBLIC_DEFAULT_CURRENCY"; Some "USD"] /\
  Some (defaultLocale (regionalConfig env r))
    = first_nonempty [Options.defaultLocale r; env !! "NEXT_PUBLIC_DEFAULT_LOCALE"; Some "en-US"] /\
  CONFIG !! "brand" = Some (default (js_of_brand (brandConfig env b)) (custom !! "brand")) /\
  CONFIG !! "regional"
    = Some (default (js_of_regional (regionalConfig env r)) (custom !! "regional")).
Proof.
  intros b r custom CONFIG.
  repeat match goal with
         | |- _ /\ _ => split
         end;
    try (cbn [brandConfig regionalConfig name tagline primaryColor secondaryColor
              tertiaryColor defaultCurrency defaultLocale DEFAULT_BRAND];
         apply first_nonempty_chain; discriminate).
  - subst CONFIG. rewrite CONFIG_lookup. fold custom. by destruct (custom !! "brand").
  - subst CONFIG. rewrite CONFIG_lookup. fold custom. by destruct (custom !! "regional").
Qed.

(** C2. The logo reference is resolved by a presence check: an explicit
    [null] stays [null] whatever the environment holds, any explicit value
    is kept as it is and the result then does not depend on the
    environment, and only an omitted [logoUrl] falls through to the
    environment variable (when non-empty) and then to the default [null]. *)
Theorem logo_explicit_null_is_kept (env env' : gmap string string)
    (options : BrandModuleOptions) :
  let b := default empty_brand (Options.brand options) in
  (logoUrl b = Some LogoNull -> logoUrl (brandConfig env b) = Some LogoNull) /\
  (logoUrl b <> None ->
     logoUrl (brandConfig env b) = logoUrl b /\
     logoUrl (brandConfig env b) = logoUrl (brandConfig env' b)) /\
  (logoUrl b = None ->
     logoUrl (brandConfig env b) =
       Some (match first_nonempty [env !! "NEXT_PUBLIC_APP_LOGO_URL"] with
             | Some url => LogoStr url
             | None => LogoNull
             end)).
Proof.
  intros b. cbn [brandConfig logoUrl DEFAULT_BRAND first_nonempty]. repeat split.
  - by intros ->.
  - by destruct (logoUrl b).
  - by destruct (logoUrl b).
  - intros ->. unfold logo_or.
    destruct (env !! "NEXT_PUBLIC_APP_LOGO_URL") as [s|]; [| done].
    by destruct (String.eqb s "").
Qed.

(** C5. [supportedLocales] is the union of the dashboard and marketing
    language codes without repetitions: the dashboard codes first, in
    their order, then the marketing codes not among them; [CONFIG.i18n]
    holds that list (unless a custom entry named [i18n] replaces it). *)
Theorem supportedLocales_ordered_union (env : gmap string string)
    (options : BrandModuleOptions) :
  let languages := default DEFAULT_LANGUAGES (Options.languages options) in
  let marketingLanguages := default DEFAULT_LANGUAGES (Options.marketingLanguages options) in
  let dashboard := language_code <$> languages in
  let marketing := language_code <$> marketingLanguages in
  let custom := default ∅ (Options.customConfig options) in
  supportedLocales languages marketingLanguages
    = (dedup dashboard ++ filter (fun c => c ∉ dashboard) (dedup marketing))%list /\
  NoDup (supportedLocales languages marketingLanguages) /\
  (forall c, c ∈ supportedLocales languages marketingLanguages
             <-> c ∈ dashboard \/ c ∈ marketing) /\
  BrandModule.CONFIG (createBrandConfig env options) !! "i18n"
    = Some (default (js_of_i18n (supportedLocales languages marketingLanguages))
              (custom !! "i18n")).
Proof.
  intros languages marketingLanguages dashboard marketing custom.
  assert (Hset : supportedLocales languages marketingLanguages
                 = dedup (dashboard ++ marketing)%list)
    by apply Set_from_dedup.
  repeat split.
  - by rewrite Hset, dedup_app.
  - rewrite Hset. apply NoDup_dedup.
  - rewrite Hset, elem_of_dedup, elem_of_app. tauto.
  - rewrite Hset, elem_of_dedup, elem_of_app. tauto.
  - rewrite CONFIG_lookup. fold custom. by destruct (custom !! "i18n").
Qed.

(** C9. Every entry of [customConfig] is a top-level entry of [CONFIG];
    an entry whose key is one of the built-in keys replaces the built-in
    value; and a key that [customConfig] does not hold has in [CONFIG] the
    value it has without any [customConfig]. *)
Theorem custom_entries_shadow (env : gmap string string) (options : BrandModuleOptions) :
  let custom := default ∅ (Options.customConfig options) in
  let CONFIG := BrandModule.CONFIG (createBrandConfig env options) in
  let fixed := BrandModule.CONFIG (createBrandConfig env (without_custom options)) in
  dom fixed = built_in_keys /\
  dom CONFIG = built_in_keys ∪ dom custom /\
  (forall k v, custom !! k = Some v -> CONFIG !! k = Some v) /\
  (forall k, custom !! k = None -> CONFIG !! k = fixed !! k) /\
  ((forall k, k ∈ built_in_keys -> custom !! k = None) ->
   forall k, k ∈ built_in_keys -> CONFIG !! k = fixed !! k /\ is_Some (CONFIG !! k)).
Proof.
  intros custom CONFIG fixed.
  assert (Hfixed : dom fixed = built_in_keys).
  { subst fixed. cbn [createBrandConfig BrandModule.CONFIG without_custom
                      Options.customConfig default].
    rewrite spread_union, (left_id_L ∅ (∪)).
    unfold object_literal, built_in, define, built_in_keys. cbn [foldl fst snd].
    rewrite !dom_insert_L, dom_empty_L. set_solver. }
  assert (Hlookup : forall k, CONFIG !! k = from_option Some (fixed !! k) (custom !! k))
    by (intros k; apply CONFIG_lookup).
  split; [exact Hfixed |]. split; [| split; [| split]].
  - apply set_eq. intros k. rewrite elem_of_union, <- Hfixed, !elem_of_dom, Hlookup.
    destruct (custom !! k) as [v|]; cbn.
    + split; [intros _; right | ]; eauto.
    + split; [by left | intros [?|[? ?]]; done].
  - intros k v Hk. by rewrite Hlookup, Hk.
  - intros k Hk. by rewrite Hlookup, Hk.
  - intros Hfree k Hk.
    assert (Hsome : is_Some (fixed !! k)).
    { apply (elem_of_dom (D := gset string)). by rewrite Hfixed. }
    by rewrite Hlookup, (Hfree k Hk).
Qed.

End Assembler.

Example explicit_name_wins :
  name (brandConfig {[ "NEXT_PUBLIC_APP_NAME" := "EnvCo" ]}
          {| name := Some "Acme"; tagline := Some ""; logoUrl := None;
             primaryColor := None; secondaryColor := None; tertiaryColor := None |})
    = Some "Acme" /\
  tagline (brandConfig {[ "NEXT_PUBLIC_APP_TAGLINE" := "From env" ]}
          {| name := Some "Acme"; tagline := Some ""; logoUrl := None;
             primaryColor := None; secondaryColor := None; tertiaryColor := None |})
    = Some "From env" /\
  brandConfig ∅ empty_brand = DEFAULT_BRAND.
Proof. repeat split; reflexivity. Qed.

Example explicit_null_logo :
  logoUrl (brandConfig {[ "NEXT_PUBLIC_APP_LOGO_URL" := "/logo.png" ]}
             {| name := None; tagline := None; logoUrl := Some LogoNull;
                primaryColor := None; secondaryColor := None; tertiaryColor := None |})
    = Some LogoNull /\
  logoUrl (brandConfig {[ "NEXT_PUBLIC_APP_LOGO_URL" := "/logo.png" ]} empty_brand)
    = Some (LogoStr "/logo.png") /\
  logoUrl (brandConfig ∅ empty_brand) = Some LogoNull.
Proof. repeat split; reflexivity. Qed.

Example supportedLocales_example :
  supportedLocales
    [ {| language_code := "en-US"; language_flag := ""; language_name := "English" |};
      {| language_code := "es-ES"; language_flag := ""; language_name := "Spanish" |} ]
    [ {| language_code := "es-ES"; language_flag := ""; language_name := "Spanish" |};
      {| language_code := "fr-FR"; language_flag := ""; language_name := "French" |} ]
  = ["en-US"; "es-ES"; "fr-FR"].
Proof. reflexivity. Qed.

(** ** The cookie helpers *)

Module CookieFacts.
Import JsString JsStringFacts.

Lemma url_safe_char_plain (c : ascii) :
  url_safe_char c = true ->
  Ascii.eqb c ";" = false /\ Ascii.eqb c "=" = false /\ is_space c = false.
Proof. destruct c as [[] [] [] [] [] [] [] []]; vm_compute; intros Hc; done. Qed.

Lemma url_safe_plain (s : string) :
  url_safe s = true ->
  has_char ";" s = false /\ has_char "=" s = false /\ trim s = s.
Proof.
  intros Hs.
  assert (Hend : trim_end s = s /\ has_char ";" s = false /\ has_char "=" s = false).
  { induction s as [|c s IH]; [done |].
    cbn [url_safe] in Hs. apply andb_true_iff in Hs as [Hc Hs].
    destruct (url_safe_char_plain c Hc) as (Hsemi & Heq & Hsp).
    destruct (IH Hs) as (IHtrim & IHsemi & IHeq).
    cbn [trim_end has_char]. rewrite IHtrim, Hsemi, Heq, Hsp, IHsemi, IHeq.
    by destruct s. }
  destruct Hend as (Hend & Hsemi & Heq). repeat split; [done | done |].
  unfold trim. destruct s as [|c s]; [done |].
  cbn [url_safe] in Hs. apply andb_true_iff in Hs as [Hc _].
  destruct (url_safe_char_plain c Hc) as (_ & _ & Hsp).
  cbn [trim_start]. by rewrite Hsp.
Qed.

Lemma plain_value_char_plain (c : ascii) :
  plain_value_char c = true -> Ascii.eqb c ";" = false /\ is_space c = false.
Proof. destruct c as [[] [] [] [] [] [] [] []]; vm_compute; intros Hc; done. Qed.

(** A plain value holds no [;] and has no outer blanks to trim. *)
Lemma plain_value_plain (s : string) :
  plain_value s = true -> has_char ";" s = false /\ trim s = s.
Proof.
  intros Hs.
  assert (Hend : trim_end s = s /\ has_char ";" s = false).
  { induction s as [|c s IH]; [done |].
    cbn [plain_value] in Hs. apply andb_true_iff in Hs as [Hc Hs].
    destruct (plain_value_char_plain c Hc) as (Hsemi & Hsp).
    destruct (IH Hs) as (IHtrim & IHsemi).
    cbn [trim_end has_char]. rewrite IHtrim, Hsemi, Hsp, IHsemi.
    by destruct s. }
  destruct Hend as (Hend & Hsemi). split; [done |].
  unfold trim. destruct s as [|c s]; [done |].
  cbn [plain_value] in Hs. apply andb_true_iff in Hs as [Hc _].
  destruct (plain_value_char_plain c Hc) as (_ & Hsp).
  cbn [trim_start]. by rewrite Hsp.
Qed.

Lemma url_safe_plain_value (s : string) : url_safe s = true -> plain_value s = true.
Proof.
  induction s as [|c s IH]; [done |]. cbn [url_safe plain_value].
  intros [Hc Hs]%andb_true_iff. rewrite (IH Hs), andb_true_r.
  revert Hc. clear. destruct c as [[] [] [] [] [] [] [] []]; vm_compute; intros Hc; done.
Qed.

Lemma cut_Some (c : ascii) (s l r : string) :
  cut c s = Some (l, r) -> s = l +:+ String c r /\ has_char c l = false.
Proof.
  revert l. induction s as [|x s IH]; intros l; cbn [cut]; [done |].
  destruct (Ascii.eqb_spec x c) as [->|Hne].
  - by intros [= <- <-].
  - destruct (cut c s) as [[l' r']|]; [| done]. intros [= <- <-].
    destruct (IH l' eq_refl) as [-> Hl']. split; [done |].
    cbn [has_char]. rewrite Hl'. by apply Ascii.eqb_neq in Hne as ->.
Qed.

Lemma cut_None (c : ascii) (s : string) : cut c s = None -> has_char c s = false.
Proof.
  induction s as [|x s IH]; cbn [cut has_char]; [done |].
  destruct (Ascii.eqb x c); [done |].
  destruct (cut c s) as [[l r]|]; [done |]. intros _. by apply IH.
Qed.

Lemma has_char_trim (c : ascii) (s : string) :
  has_char c s = false -> has_char c (trim s) = false.
Proof.
  assert (Hstart : forall s, has_char c s = false -> has_char c (trim_start s) = false).
  { intros s0. induction s0 as [|x s0 IH]; [done |]. cbn [trim_start].
    destruct (is_space x); [| done].
    cbn [has_char]. intros [_ Hs0]%orb_false_elim. by apply IH. }
  assert (Hend : forall s, has_char c s = false -> has_char c (trim_end s) = false).
  { intros s0. induction s0 as [|x s0 IH]; [done |]. cbn [trim_end has_char].
    intros [Hx Hs0]%orb_false_elim. specialize (IH Hs0).
    destruct (trim_end s0) as [|y r].
    - destruct (is_space x); [done |]. cbn [has_char]. by rewrite Hx.
    - cbn [has_char] in *. by rewrite Hx, IH. }
  intros Hs. by apply Hend, Hstart.
Qed.

(** Every cookie the store accepts is well formed. *)
Lemma parse_cookie_ok (s : string) (c : Cookie) : parse_cookie s = Some c -> cookie_ok c.
Proof.
  unfold parse_cookie.
  destruct (cut ";" s) as [[p rest]|] eqn:Hcut.
  - apply cut_Some in Hcut as [_ Hp].
    destruct (cut "=" p) as [[n v]|] eqn:Hnv; [| done].
    apply cut_Some in Hnv as [-> Hn]. rewrite !has_char_app in Hp.
    apply orb_false_elim in Hp as [Hn' [_ Hv]%orb_false_elim].
    destruct (String.eqb (trim n) ""); [done |]. intros [= <-].
    repeat split; cbn [cookie_name cookie_value]; by apply has_char_trim.
  - apply cut_None in Hcut.
    destruct (cut "=" s) as [[n v]|] eqn:Hnv; [| done].
    apply cut_Some in Hnv as [-> Hn]. rewrite !has_char_app in Hcut.
    apply orb_false_elim in Hcut as [Hn' [_ Hv]%orb_false_elim].
    destruct (String.eqb (trim n) ""); [done |]. intros [= <-].
    repeat split; cbn [cookie_name cookie_value]; by apply has_char_trim.
Qed.

Lemma cut_first (c : ascii) (a b : string) :
  has_char c a = false -> cut c (a +:+ String c b) = Some (a, b).
Proof.
  induction a as [|x a IH]; cbn [has_char].
  - intros _. cbn. by rewrite Ascii.eqb_refl.
  - intros [Hx Ha]%orb_false_elim.
    change (String x a +:+ String c b) with (String x (a +:+ String c b)).
    cbn [cut]. by rewrite Hx, (IH Ha).
Qed.

(** The cookie that [setLocaleCookie] writes, as the store reads it. *)
Lemma parse_locale_cookie (locale : string) :
  url_safe locale = true ->
  parse_cookie ("NEXT_LOCALE=" +:+ locale +:+ "; path=/; max-age=31536000; SameSite=Lax")
  = Some {| cookie_name := "NEXT_LOCALE"; cookie_value := locale;
            cookie_attributes := ["path=/"; "max-age=31536000"; "SameSite=Lax"] |}.
Proof.
  intros Hsafe. destruct (url_safe_plain locale Hsafe) as (Hsemi & Heq & Htrim).
  unfold parse_cookie.
  change ("NEXT_LOCALE=" +:+ locale +:+ "; path=/; max-age=31536000; SameSite=Lax")
    with ("NEXT_LOCALE=" +:+ (locale +:+ String ";" " path=/; max-age=31536000; SameSite=Lax")).
  rewrite <- append_assoc, cut_first by (by rewrite has_char_app, Hsemi).
  change ("NEXT_LOCALE=" +:+ locale) with ("NEXT_LOCALE" +:+ String "=" locale).
  rewrite cut_first by done. by rewrite Htrim.
Qed.

Lemma prefix_name (p n v : string) :
  has_char "=" p = false -> has_char "=" n = false ->
  String.prefix (p +:+ "=") (n +:+ "=" +:+ v) = String.eqb n p.
Proof.
  revert n. induction p as [|y p IH]; intros [|x n]; cbn [has_char];
    intros Hp Hn.
  - change (String.prefix "=" (String "=" v) = true). rewrite prefix_char. done.
  - apply orb_false_elim in Hn as [Hx _].
    change ("" +:+ "=") with (String "=" ""). apply (prefix_head_ne "=" x "" _ Hx).
  - apply orb_false_elim in Hp as [Hy _]. cbn.
    destruct (ascii_dec y "=") as [->|]; [done | done].
  - apply orb_false_elim in Hp as [_ Hp]. apply orb_false_elim in Hn as [_ Hn].
    cbn. destruct (ascii_dec y x) as [->|Hne].
    + rewrite Ascii.eqb_refl. by apply IH.
    + apply not_eq_sym, Ascii.eqb_neq in Hne. by rewrite Hne.
Qed.

Lemma startsWith_row (c : Cookie) :
  cookie_ok c ->
  startsWith "NEXT_LOCALE=" (cookie_row c) = String.eqb (cookie_name c) "NEXT_LOCALE".
Proof.
  intros (_ & Heq & _). unfold startsWith, cookie_row.
  by apply (prefix_name "NEXT_LOCALE").
Qed.

Lemma row_no_semicolon (c : Cookie) : cookie_ok c -> has_char ";" (cookie_row c) = false.
Proof.
  intros (Hn & _ & Hv). unfold cookie_row.
  by rewrite !has_char_app, Hn, Hv.
Qed.

(** Reading the header back gives the rows of the stored cookies. *)
Lemma split_read_cookie (d : Document) :
  Forall cookie_ok (cookies d) ->
  split "; " (read_cookie d) =
    match cookies d with
    | [] => [""]
    | _ => cookie_row <$> cookies d
    end.
Proof.
  intros Hok. unfold read_cookie. destruct (cookies d) as [|c jar] eqn:Hjar; [done |].
  apply (split_join ";" " "); [done |].
  apply Forall_fmap. eapply Forall_impl; [exact Hok |]. apply row_no_semicolon.
Qed.

Lemma find_row (jar : list Cookie) :
  Forall cookie_ok jar ->
  List.find (startsWith "NEXT_LOCALE=") (cookie_row <$> jar) =
    cookie_row <$> List.find (fun c => String.eqb (cookie_name c) "NEXT_LOCALE") jar.
Proof.
  induction 1 as [|c jar Hc _ IH]; [done |].
  cbn [fmap list_fmap List.find]. rewrite (startsWith_row c Hc).
  by destruct (String.eqb (cookie_name c) "NEXT_LOCALE").
Qed.

Lemma split_row (c : Cookie) :
  cookie_ok c ->
  split "=" (cookie_row c) !! 1%nat = Some (hd "" (split "=" (cookie_value c))).
Proof.
  intros (_ & Heq & _). unfold cookie_row.
  rewrite (split_piece_sep "=" "" _ _ Heq). cbn [lookup list_lookup].
  pose proof (split_from_nonempty "=" 0 (cookie_value c)) as Hne.
  unfold split. by destruct (split_from "=" 0 (cookie_value c)).
Qed.

End CookieFacts.

Section Store.
Import JsString.

Lemma cookie_row_not_empty (c : Cookie) : String.eqb (cookie_row c) "" = false.
Proof. unfold cookie_row. by destruct (cookie_name c). Qed.

(** What [getLocaleCookie] returns is decided by the first stored cookie
    named [NEXT_LOCALE]: the text of its value up to the first [=]. *)
Lemma getLocaleCookie_first_entry (d : Document) :
  Forall cookie_ok (cookies d) ->
  getLocaleCookie (Some d) =
    Ok match List.find (fun c => String.eqb (cookie_name c) "NEXT_LOCALE") (cookies d) with
       | Some c => JStr (hd "" (split "=" (cookie_value c)))
       | None => JNull
       end.
Proof.
  intros Hok. unfold getLocaleCookie. cbn [document_undefined the_document mbind Result_bind].
  rewrite (CookieFacts.split_read_cookie d Hok).
  destruct (cookies d) as [|c0 jar] eqn:Hjar; [done |].
  rewrite (CookieFacts.find_row _ Hok).
  destruct (List.find _ (c0 :: jar)) as [c|] eqn:Hfind; [| done].
  cbn [fmap option_fmap option_map]. rewrite cookie_row_not_empty.
  apply find_some in Hfind as [Hin _].
  rewrite Forall_forall in Hok. apply list_elem_of_In in Hin.
  by rewrite (CookieFacts.split_row c (Hok c Hin)).
Qed.

(** The read never throws and never yields [undefined]. *)
Lemma getLocaleCookie_total (document : option Document) :
  (forall d, document = Some d -> Forall cookie_ok (cookies d)) ->
  exists v, getLocaleCookie document = Ok v /\ v <> JUndef.
Proof.
  destruct document as [d|]; intros Hok; [| by exists JNull].
  rewrite getLocaleCookie_first_entry by (by apply Hok).
  destruct (List.find _ (cookies d)); eauto.
Qed.

Lemma store_cookie_names (c : Cookie) (jar : list Cookie) :
  cookie_name <$> store_cookie c jar =
    if bool_decide (cookie_name c ∈ cookie_name <$> jar) then cookie_name <$> jar
    else ((cookie_name <$> jar) ++ [cookie_name c])%list.
Proof.
  induction jar as [|c' jar IH]; [done |].
  cbn [store_cookie]. destruct (String.eqb_spec (cookie_name c') (cookie_name c)) as [Heq|Hne].
  - rewrite bool_decide_eq_true_2 by (rewrite fmap_cons, Heq; apply elem_of_cons; by left).
    by rewrite !fmap_cons, Heq.
  - rewrite !fmap_cons, IH.
    case_bool_decide as Hjar; case_bool_decide as Hall; try done.
    + exfalso. apply Hall, elem_of_cons. by right.
    + apply elem_of_cons in Hall as [Heq|Hin]; [by exfalso; apply Hne | done].
Qed.

Lemma store_cookie_elem (c : Cookie) (jar : list Cookie) : c ∈ store_cookie c jar.
Proof.
  induction jar as [|c' jar IH]; cbn [store_cookie]; [apply elem_of_cons; by left |].
  destruct (String.eqb (cookie_name c') (cookie_name c)); apply elem_of_cons; auto.
Qed.

(** A stored cookie is the first of its name. *)
Lemma find_stored (c : Cookie) (jar : list Cookie) :
  List.find (fun c' => String.eqb (cookie_name c') (cookie_name c)) (store_cookie c jar)
  = Some c.
Proof.
  induction jar as [|c' jar IH]; cbn [store_cookie List.find].
  - by rewrite String.eqb_refl.
  - destruct (String.eqb (cookie_name c') (cookie_name c)) eqn:Hname; cbn [List.find].
    + by rewrite String.eqb_refl.
    + by rewrite Hname.
Qed.

Lemma store_cookie_all_ok (c : Cookie) (jar : list Cookie) :
  cookie_ok c -> Forall cookie_ok jar -> Forall cookie_ok (store_cookie c jar).
Proof.
  intros Hc Hall. induction Hall as [|c' jar Hc' Hjar IH]; cbn [store_cookie].
  - by apply Forall_singleton.
  - destruct (String.eqb (cookie_name c') (cookie_name c)); by apply Forall_cons.
Qed.

(** A write of [NEXT_LOCALE] with the attributes of [setLocaleCookie]
    leaves no other kind of [NEXT_LOCALE] cookie in the store. *)
Lemma store_cookie_only_own (c : Cookie) (d : Document) :
  cookie_attributes c = locale_attributes ->
  only_own_locale_cookie d ->
  only_own_locale_cookie {| cookies := store_cookie c (cookies d) |}.
Proof.
  unfold only_own_locale_cookie. cbn [cookies]. intros Hc Hall.
  induction Hall as [|c' jar Hc' Hjar IH]; cbn [store_cookie].
  - by apply Forall_singleton.
  - destruct (String.eqb (cookie_name c') (cookie_name c)); by apply Forall_cons.
Qed.

(** Storing a well-formed cookie keeps the store well formed. *)
Lemma store_cookie_ok (c : Cookie) (d : Document) :
  cookie_ok c -> store_ok d -> store_ok {| cookies := store_cookie c (cookies d) |}.
Proof.
  unfold store_ok. cbn [cookies]. intros Hc [Hall Hnd]. split.
  - by apply store_cookie_all_ok.
  - rewrite store_cookie_names. case_bool_decide as Hin; [done |].
    apply NoDup_app. repeat split; [done | | apply NoDup_singleton].
    intros x Hx ->%list_elem_of_singleton. done.
Qed.

(** The store invariant holds of the empty store and is kept by every
    write. *)
Lemma write_cookie_ok (s : string) (d : Document) :
  store_ok {| cookies := [] |} /\ (store_ok d -> store_ok (write_cookie s d)).
Proof.
  split; [split; constructor |].
  intros Hd. unfold write_cookie. destruct (parse_cookie s) as [c|] eqn:Hparse; [| done].
  apply store_cookie_ok; [| done]. by apply (CookieFacts.parse_cookie_ok s).
Qed.

(** In a store without repeated names, the cookie of a name is the first
    of that name. *)
Lemma find_unique (c : Cookie) (jar : list Cookie) :
  NoDup (cookie_name <$> jar) -> c ∈ jar ->
  List.find (fun c' => String.eqb (cookie_name c') (cookie_name c)) jar = Some c.
Proof.
  induction jar as [|c' jar IH]; [by intros _ ?%elem_of_nil |].
  rewrite fmap_cons. intros [Hfresh Hnd]%NoDup_cons [->|Hin]%elem_of_cons; cbn [List.find].
  - by rewrite String.eqb_refl.
  - destruct (String.eqb_spec (cookie_name c') (cookie_name c)) as [Heq|_]; [| by apply IH].
    exfalso. apply Hfresh. rewrite Heq. by apply list_elem_of_fmap_2.
Qed.

(** [null] is the answer exactly when no stored cookie is named
    [NEXT_LOCALE]. *)
Lemma getLocaleCookie_null_iff (d : Document) :
  Forall cookie_ok (cookies d) ->
  getLocaleCookie (Some d) = Ok JNull <-> "NEXT_LOCALE" ∉ cookie_name <$> cookies d.
Proof.
  intros Hok. rewrite getLocaleCookie_first_entry by done.
  destruct (List.find _ (cookies d)) as [c|] eqn:Hfind.
  - apply find_some in Hfind as [Hin Hname%String.eqb_eq].
    split; [done |]. intros Hno. exfalso. apply Hno.
    rewrite <- Hname. by apply list_elem_of_fmap_2, list_elem_of_In.
  - split; [| done]. intros _ (c & Hname & Hin)%list_elem_of_fmap.
    pose proof (find_none _ _ Hfind c (proj1 (list_elem_of_In _ _) Hin)) as Hne.
    apply String.eqb_neq in Hne. by apply Hne.
Qed.

(** C7. For a locale made of URL-safe characters, [setLocaleCookie]
    writes [NEXT_LOCALE=<locale>; path=/; max-age=31536000; SameSite=Lax],
    which stores a cookie named [NEXT_LOCALE] with that value and those
    three attributes; [getLocaleCookie], which returns the value of the
    first [NEXT_LOCALE] entry of the header split at ["; "], called on the
    same store afterwards returns the locale. The store is one whose
    cookies are well formed and that holds no [NEXT_LOCALE] cookie under
    another path or domain: none but what [setLocaleCookie] wrote, which
    the write replaces; the store is of that kind again after the
    write. *)
Theorem locale_cookie_round_trip (locale : string) (d : Document) :
  url_safe locale = true ->
  Forall cookie_ok (cookies d) ->
  only_own_locale_cookie d ->
  let written :=
    {| cookie_name := "NEXT_LOCALE"; cookie_value := locale;
       cookie_attributes := ["path=/"; "max-age=31536000"; "SameSite=Lax"] |} in
  let d' := {| cookies := store_cookie written (cookies d) |} in
  setLocaleCookie locale (Some d) = Ok (Some d') /\
  written ∈ cookies d' /\
  Forall cookie_ok (cookies d') /\
  only_own_locale_cookie d' /\
  List.find (startsWith "NEXT_LOCALE=") (split "; " (read_cookie d'))
    = Some ("NEXT_LOCALE=" +:+ locale) /\
  (document ← setLocaleCookie locale (Some d); getLocaleCookie document) = Ok (JStr locale).
Proof.
  intros Hsafe Hd Hown written d'.
  destruct (CookieFacts.url_safe_plain locale Hsafe) as (Hsemi & Heq & _).
  assert (Hwritten : cookie_ok written) by done.
  assert (Hset : setLocaleCookie locale (Some d) = Ok (Some d')).
  { unfold setLocaleCookie, write_cookie.
    cbn [document_undefined the_document mbind Result_bind].
    by rewrite CookieFacts.parse_locale_cookie. }
  assert (Hok' : Forall cookie_ok (cookies d')) by (by apply store_cookie_all_ok).
  pose proof (store_cookie_elem written (cookies d)) as Hin.
  assert (Hfind : List.find (fun c => String.eqb (cookie_name c) "NEXT_LOCALE") (cookies d')
                  = Some written)
    by apply (find_stored written).
  split; [exact Hset |]. split; [exact Hin |]. split; [exact Hok' |].
  split; [by apply store_cookie_only_own |]. split.
  - rewrite CookieFacts.split_read_cookie by done.
    destruct (cookies d') as [|c0 jar] eqn:Hjar; [done |].
    rewrite CookieFacts.find_row by done. by rewrite Hfind.
  - rewrite Hset. cbn [mbind Result_bind].
    rewrite getLocaleCookie_first_entry by done.
    rewrite Hfind. cbn [cookie_value written].
    by rewrite (JsStringFacts.split_piece "=" "" locale Heq).
Qed.

(** C8. With no ambient document neither helper throws:
    [getLocaleCookie] returns [null], and [setLocaleCookie] returns with
    nothing written, whatever the locale (there is still no document
    after the call). *)
Theorem cookie_helpers_without_document `{Realm} (env : gmap string string)
    (options : BrandModuleOptions) (locale : string) :
  let module := createBrandConfig env options in
  the_document None = Throw ReferenceError /\
  BrandModule.getLocaleCookie module None = Ok JNull /\
  BrandModule.setLocaleCookie module locale None = Ok None /\
  (document ← BrandModule.setLocaleCookie module locale None;
   BrandModule.getLocaleCookie module document) = Ok JNull /\
  (forall document, exists after,
     BrandModule.setLocaleCookie module locale document = Ok after).
Proof.
  intros module. split; [done |]. split; [done |]. split; [done |]. split; [done |].
  intros [d|]; cbn [module createBrandConfig BrandModule.setLocaleCookie]; eauto.
Qed.

(** C10. When the store holds a cookie named [NEXT_LOCALE] whose value is
    the empty string, the header has the entry [NEXT_LOCALE=] and
    [getLocaleCookie] returns the empty string, not [null]; it returns
    [null] exactly when no stored cookie has that name. *)
Theorem empty_locale_cookie_is_returned (d : Document) (c : Cookie) :
  store_ok d ->
  c ∈ cookies d ->
  cookie_name c = "NEXT_LOCALE" ->
  cookie_value c = "" ->
  In "NEXT_LOCALE=" (split "; " (read_cookie d)) /\
  getLocaleCookie (Some d) = Ok (JStr "") /\
  getLocaleCookie (Some d) <> Ok JNull /\
  (forall d', store_ok d' ->
     getLocaleCookie (Some d') = Ok JNull <-> "NEXT_LOCALE" ∉ cookie_name <$> cookies d').
Proof.
  intros [Hall Hnd] Hin Hname Hvalue.
  assert (Hget : getLocaleCookie (Some d) = Ok (JStr "")).
  { rewrite getLocaleCookie_first_entry by done.
    rewrite <- Hname, (find_unique c _ Hnd Hin). by rewrite Hvalue. }
  split; [| split; [done | split; [by rewrite Hget |]]];
    [| intros d' [Hall' _]; by apply getLocaleCookie_null_iff].
  rewrite CookieFacts.split_read_cookie by done.
  destruct (cookies d) as [|c0 jar] eqn:Hjar; [by apply elem_of_nil in Hin |].
  apply list_elem_of_In, list_elem_of_fmap. exists c. split; [| done].
  unfold cookie_row. by rewrite Hname, Hvalue.
Qed.

End Store.

Lemma sample_documents_ok : store_ok sample_document /\ store_ok empty_locale_document.
Proof.
  split; (split; [apply Forall_cons; split; [done | by apply Forall_singleton] |]);
    cbn; apply NoDup_cons; (split; [by intros ?%list_elem_of_singleton | apply NoDup_singleton]).
Qed.

Lemma visited_document_ok :
  Forall cookie_ok (cookies visited_document) /\ only_own_locale_cookie visited_document.
Proof.
  split; (apply Forall_cons; split; [done | by apply Forall_singleton]).
Qed.

Lemma locale_cookie_round_trip_witness :
  read_cookie visited_document = "theme=dark; NEXT_LOCALE=en-US" /\
  (document ← setLocaleCookie "fr-FR" (Some visited_document); getLocaleCookie document)
    = Ok (JStr "fr-FR").
Proof.
  split; [reflexivity |].
  exact (proj2 (proj2 (proj2 (proj2 (proj2
    (locale_cookie_round_trip "fr-FR" visited_document eq_refl
       (proj1 visited_document_ok) (proj2 visited_document_ok))))))).
Defined.

Example round_trip_from_empty_store :
  setLocaleCookie "fr-FR" (Some {| cookies := [] |})
    = Ok (Some {| cookies :=
                [ {| cookie_name := "NEXT_LOCALE"; cookie_value := "fr-FR";
                     cookie_attributes := ["path=/"; "max-age=31536000"; "SameSite=Lax"] |} ] |}) /\
  (document ← setLocaleCookie "fr-FR" (Some {| cookies := [] |}); getLocaleCookie document)
    = Ok (JStr "fr-FR") /\
  getLocaleCookie (Some {| cookies := [] |}) = Ok JNull.
Proof. repeat split; reflexivity. Qed.

Lemma empty_locale_cookie_is_returned_witness :
  read_cookie empty_locale_document = "theme=dark; NEXT_LOCALE=" /\
  getLocaleCookie (Some empty_locale_document) = Ok (JStr "").
Proof.
  split; [reflexivity |].
  refine (proj1 (proj2
    (empty_locale_cookie_is_returned empty_locale_document
       {| cookie_name := "NEXT_LOCALE"; cookie_value := ""; cookie_attributes := [] |}
       (proj2 sample_documents_ok) _ eq_refl eq_refl))).
  apply elem_of_cons. right. apply elem_of_cons. by left.
Defined.

(** * Further properties of the assembler *)

Lemma str_or_cases (a b : option string) :
  present a /\ str_or a b = a \/ str_or a b = b.
Proof.
  unfold str_or, present. destruct a as [s|]; [| by right].
  destruct (String.eqb_spec s "") as [->|Hs]; [by right | left; eauto].
Qed.

Lemma str_or_present (a b : option string) (d : string) :
  d <> "" -> present (str_or (str_or a b) (Some d)).
Proof.
  intros Hd. destruct (str_or_cases (str_or a b) (Some d)) as [[Ha ->]| ->]; [done |].
  by exists d.
Qed.

Lemma str_or_else_nonempty (a : option string) (d : string) :
  d <> "" -> str_or_else a d <> "".
Proof.
  intros Hd. unfold str_or_else.
  destruct a as [s|]; [destruct (String.eqb_spec s "") as [->|Hs] |]; done.
Qed.

Lemma str_or_of_present (a b c : option string) :
  present a -> str_or (str_or a b) c = a.
Proof.
  intros (s & -> & Hs). apply String.eqb_neq in Hs. unfold str_or. by rewrite Hs, Hs.
Qed.

(** X1. Whatever the options and the environment hold, the resolved brand
    has a non-empty name, tagline and colours, its logo reference is a
    string or [null] (never [undefined]), and the resolved default currency
    and default locale are non-empty. *)
Theorem resolved_settings_are_complete (env : gmap string string)
    (brand : BrandConfig) (regional : Options.Regional) :
  present (name (brandConfig env brand)) /\
  present (tagline (brandConfig env brand)) /\
  present (primaryColor (brandConfig env brand)) /\
  present (secondaryColor (brandConfig env brand)) /\
  present (tertiaryColor (brandConfig env brand)) /\
  logoUrl (brandConfig env brand) <> None /\
  defaultCurrency (regionalConfig env regional) <> "" /\
  defaultLocale (regionalConfig env regional) <> "".
Proof.
  cbn [brandConfig regionalConfig name tagline primaryColor secondaryColor tertiaryColor
       logoUrl defaultCurrency defaultLocale DEFAULT_BRAND].
  repeat split; try (by apply str_or_present); try (by apply str_or_else_nonempty).
  destruct (logoUrl brand); [done |]. unfold logo_or.
  destruct (env !! "NEXT_PUBLIC_APP_LOGO_URL") as [s|]; [| done].
  by destruct (String.eqb s "").
Qed.

(** X2. A resolved brand is a fixed point of the resolution, in any
    environment: passing it back as the [brand] option returns it
    unchanged, so the environment can no longer change any field. *)
Theorem brandConfig_is_stable (env env' : gmap string string) (brand : BrandConfig) :
  brandConfig env' (brandConfig env brand) = brandConfig env brand.
Proof.
  assert (Hlogo : exists l, logoUrl (brandConfig env brand) = Some l).
  { cbn [brandConfig logoUrl DEFAULT_BRAND]. destruct (logoUrl brand); [eauto |].
    unfold logo_or. destruct (env !! "NEXT_PUBLIC_APP_LOGO_URL") as [s|]; [| eauto].
    destruct (String.eqb s ""); eauto. }
  destruct Hlogo as [l Hl].
  unfold brandConfig at 1. rewrite Hl.
  rewrite !str_or_of_present;
    try (cbn [brandConfig name tagline primaryColor secondaryColor tertiaryColor
              DEFAULT_BRAND]; by apply str_or_present).
  rewrite <- Hl. by destruct (brandConfig env brand).
Qed.

Lemma fmap_injective {A B : Type} (f : A -> B) :
  (forall x y, f x = f y -> x = y) ->
  forall l1 l2 : list A, f <$> l1 = f <$> l2 -> l1 = l2.
Proof.
  intros Hf l1. induction l1 as [|x l1 IH]; intros [|y l2]; try done.
  rewrite !fmap_cons. intros [= Hxy Hrest]. f_equal; [by apply Hf | by apply IH].
Qed.

Lemma js_of_currency_inj (c1 c2 : Currency) :
  js_of_currency c1 = js_of_currency c2 -> c1 = c2.
Proof.
  destruct c1 as [a1 b1 n1 s1], c2 as [a2 b2 n2 s2]. unfold js_of_currency.
  cbn [currency_code currency_flag currency_name currency_symbol]. intros Hobj.
  pose (field (k : string) (v : JsVal) := match v with JObj m => m !! k | _ => None end).
  pose proof (f_equal (field "code") Hobj) as Hcode.
  pose proof (f_equal (field "flag") Hobj) as Hflag.
  pose proof (f_equal (field "name") Hobj) as Hname.
  pose proof (f_equal (field "symbol") Hobj) as Hsym.
  clear Hobj. vm_compute in Hcode, Hflag, Hname, Hsym. congruence.
Qed.

Lemma js_of_language_inj (l1 l2 : Language) :
  js_of_language l1 = js_of_language l2 -> l1 = l2.
Proof.
  destruct l1 as [a1 b1 n1], l2 as [a2 b2 n2]. unfold js_of_language.
  cbn [language_code language_flag language_name]. intros Hobj.
  pose (field (k : string) (v : JsVal) := match v with JObj m => m !! k | _ => None end).
  pose proof (f_equal (field "code") Hobj) as Hcode.
  pose proof (f_equal (field "flag") Hobj) as Hflag.
  pose proof (f_equal (field "name") Hobj) as Hname.
  clear Hobj. vm_compute in Hcode, Hflag, Hname. congruence.
Qed.

Lemma length_dedup (l : list string) : (List.length (dedup l) <= List.length l)%nat.
Proof.
  induction l as [|x l IH]; cbn [dedup List.length]; [done |].
  pose proof (length_filter (fun y => y ≠ x) (dedup l)). lia.
Qed.

Lemma filter_nothing (P : string -> Prop) `{!forall x, Decision (P x)} (l : list string) :
  (forall x, x ∈ l -> ~ P x) -> filter P l = [].
Proof.
  induction l as [|x l IH]; intros Hno; [done |].
  rewrite filter_cons_False by (apply Hno, elem_of_cons; by left).
  apply IH. intros y Hy. apply Hno, elem_of_cons. by right.
Qed.

Section AssemblerFrame.
Context `{Realm}.

(** X3. The sequence fields and the pricing map reach [CONFIG] as they
    were given: a supplied list is used entry for entry and in order, an
    empty list stays empty (the defaults replace only an omitted field),
    and nothing of an entry is lost in the aggregate (two lists with the
    same image in [CONFIG] are the same list). *)
Theorem sequence_fields_pass_through (env : gmap string string)
    (options : BrandModuleOptions) :
  let custom := default ∅ (Options.customConfig options) in
  let CONFIG := BrandModule.CONFIG (createBrandConfig env options) in
  CONFIG !! "currencies"
    = Some (default (JArr (js_of_currency <$> default DEFAULT_CURRENCIES (Options.currencies options)))
              (custom !! "currencies")) /\
  CONFIG !! "languages"
    = Some (default (JArr (js_of_language <$> default DEFAULT_LANGUAGES (Options.languages options)))
              (custom !! "languages")) /\
  CONFIG !! "marketingLanguages"
    = Some (default
              (JArr (js_of_language <$> default DEFAULT_LANGUAGES (Options.marketingLanguages options)))
              (custom !! "marketingLanguages")) /\
  CONFIG !! "PRICING_MAP"
    = Some (default (JObj (js_of_pricing <$> default ∅ (Options.pricingMap options)))
              (custom !! "PRICING_MAP")) /\
  (Options.currencies options = Some [] -> custom !! "currencies" = None ->
   CONFIG !! "currencies" = Some (JArr [])) /\
  (forall l1 l2 : list Currency, js_of_currency <$> l1 = js_of_currency <$> l2 -> l1 = l2) /\
  (forall l1 l2 : list Language, js_of_language <$> l1 = js_of_language <$> l2 -> l1 = l2).
Proof.
  intros custom CONFIG.
  assert (Hlookup : forall k, CONFIG !! k =
            from_option Some
              (BrandModule.CONFIG (createBrandConfig env (without_custom options)) !! k)
              (custom !! k)) by (intros k; apply CONFIG_lookup).
  split; [| split; [| split; [| split; [| split; [| split]]]]].
  - rewrite Hlookup. by destruct (custom !! "currencies").
  - rewrite Hlookup. by destruct (custom !! "languages").
  - rewrite Hlookup. by destruct (custom !! "marketingLanguages").
  - rewrite Hlookup. by destruct (custom !! "PRICING_MAP").
  - intros Hempty Hfree. rewrite Hlookup, Hfree. cbn [from_option].
    cbn [createBrandConfig BrandModule.CONFIG without_custom Options.currencies
         Options.customConfig default].
    rewrite Hempty. done.
  - apply fmap_injective, js_of_currency_inj.
  - apply fmap_injective, js_of_language_inj.
Qed.

(** X4. When [marketingLanguages] is omitted, the default languages stand
    in for it even if [languages] was supplied: the three default codes
    are always among the supported locales, after the codes of the
    supplied dashboard languages. *)
Theorem omitted_marketing_languages_add_defaults (env : gmap string string)
    (options : BrandModuleOptions) :
  Options.marketingLanguages options = None ->
  let dashboard := codes (default DEFAULT_LANGUAGES (Options.languages options)) in
  let locales :=
    (dedup dashboard ++ filter (fun c => c ∉ dashboard) ["en-US"; "es-ES"; "fr-FR"])%list in
  BrandModule.CONFIG (createBrandConfig env (without_custom options)) !! "i18n"
    = Some (js_of_i18n locales) /\
  "en-US" ∈ locales /\ "es-ES" ∈ locales /\ "fr-FR" ∈ locales.
Proof.
  intros Hnone dashboard locales.
  assert (Hlocales : supportedLocales (default DEFAULT_LANGUAGES (Options.languages options))
                       DEFAULT_LANGUAGES = locales).
  { unfold supportedLocales. rewrite Set_from_dedup, dedup_app. done. }
  split.
  - cbn [createBrandConfig BrandModule.CONFIG without_custom Options.customConfig
         Options.languages Options.marketingLanguages default].
    rewrite Hnone. cbn [default]. rewrite Hlocales. done.
  - assert (Hin : forall c, c ∈ ["en-US"; "es-ES"; "fr-FR"] -> c ∈ locales).
    { intros c Hc. unfold locales. apply elem_of_app.
      destruct (decide (c ∈ dashboard)) as [Hd|Hd].
      - left. by apply elem_of_dedup.
      - right. by apply list_elem_of_filter. }
    repeat split; apply Hin; set_solver.
Qed.

(** X5. The supported locales are never more than the two lists hold,
    they are empty exactly when both lists are empty, and listing the
    same languages for dashboard and marketing adds nothing. *)
Theorem supportedLocales_size (languages marketingLanguages : list Language) :
  (List.length (supportedLocales languages marketingLanguages)
     <= List.length languages + List.length marketingLanguages)%nat /\
  (supportedLocales languages marketingLanguages = [] <->
     languages = [] /\ marketingLanguages = []) /\
  supportedLocales languages languages = dedup (codes languages).
Proof.
  unfold supportedLocales. rewrite !Set_from_dedup. fold (codes languages).
  fold (codes marketingLanguages). split; [| split].
  - pose proof (length_dedup (codes languages ++ codes marketingLanguages)) as Hle.
    rewrite length_app in Hle. unfold codes in Hle. rewrite !length_fmap in Hle. done.
  - split.
    + intros Hnil.
      assert (Hall : forall c, c ∉ (codes languages ++ codes marketingLanguages)%list).
      { intros c Hc. apply elem_of_dedup in Hc. rewrite Hnil in Hc. by apply elem_of_nil in Hc. }
      destruct languages as [|l ls]; [destruct marketingLanguages as [|m ms]; [done |] |].
      * exfalso. apply (Hall (language_code m)). cbn. apply elem_of_cons. by left.
      * exfalso. apply (Hall (language_code l)). cbn. apply elem_of_cons. by left.
    + by intros [-> ->].
  - rewrite dedup_app.
    assert (Hnone : filter (fun y => y ∉ codes languages) (dedup (codes languages)) = []).
    { apply filter_nothing. intros c Hc Hnot. by apply Hnot, elem_of_dedup. }
    by rewrite Hnone, app_nil_r.
Qed.

End AssemblerFrame.

(** * Further properties of the translation lookup *)

Module KeyFacts.
Import JsString JsStringFacts.

Lemma join_cons_head (sep : string) (x : ascii) (rows : list string) :
  rows <> [] -> join sep (cons_head x rows) = String x (join sep rows).
Proof. destruct rows as [|h [|h' rest]]; done. Qed.

Lemma join_split_char (c : ascii) (s : string) :
  join (String c "") (split (String c "") s) = s.
Proof.
  induction s as [|x s IH]; [done |].
  rewrite split_char_step. pose proof (split_from_nonempty (String c "") 0 s) as Hne.
  fold (split (String c "") s) in Hne.
  destruct (Ascii.eqb_spec x c) as [->|Hx].
  - destruct (split (String c "") s) as [|h rest] eqn:Hs; [done |].
    change (join (String c "") ("" :: h :: rest))
      with ("" +:+ String c "" +:+ join (String c "") (h :: rest)).
    by rewrite IH.
  - by rewrite join_cons_head, IH.
Qed.

Lemma split_char_pieces (c : ascii) (s : string) :
  Forall (fun piece => has_char c piece = false) (split (String c "") s).
Proof.
  induction s as [|x s IH]; [by repeat constructor |].
  rewrite split_char_step. destruct (Ascii.eqb x c) eqn:Hx.
  - by constructor.
  - destruct (split (String c "") s) as [|h rest]; cbn [cons_head].
    + constructor; [| done]. cbn. by rewrite Hx.
    + apply Forall_cons in IH as [Hh Hrest]. constructor; [| done]. cbn. by rewrite Hx, Hh.
Qed.

Lemma split_char_length (c : ascii) (s : string) :
  List.length (split (String c "") s) = S (count_char c s).
Proof.
  induction s as [|x s IH]; [done |].
  rewrite split_char_step. cbn [count_char]. destruct (Ascii.eqb x c).
  - cbn [List.length]. by rewrite IH.
  - pose proof (split_from_nonempty (String c "") 0 s) as Hne.
    fold (split (String c "") s) in Hne.
    destruct (split (String c "") s) as [|h rest]; [done |]. cbn [cons_head]. exact IH.
Qed.

Lemma digit_plain (c : ascii) (n : nat) :
  digit_of c = Some n -> Ascii.eqb c "." = false /\ Ascii.eqb c "l" = false.
Proof. destruct c as [[] [] [] [] [] [] [] []]; vm_compute; intros Hc; done. Qed.

Lemma digits_no_dot (s : string) (acc n : nat) :
  digits_from acc s = Some n -> has_char "." s = false.
Proof.
  revert acc. induction s as [|c s IH]; intros acc; [done |].
  cbn [digits_from has_char]. destruct (digit_of c) as [k|] eqn:Hc; [| done].
  intros Hrest. destruct (digit_plain c k Hc) as [-> _]. by apply (IH _ Hrest).
Qed.

(** An index key holds no dot and is not [length]. *)
Lemma array_index_plain (p : string) (i : nat) :
  array_index p = Some i -> has_char "." p = false /\ String.eqb p "length" = false.
Proof.
  unfold array_index. destruct p as [|c rest]; [done |].
  destruct (Ascii.eqb_spec c "0") as [->|Hc].
  - destruct (String.eqb_spec rest "") as [->|]; done.
  - intros Hd. split; [by apply (digits_no_dot _ _ _ Hd) |].
    cbn [digits_from] in Hd. destruct (digit_of c) as [k|] eqn:Hk; [| done].
    destruct (digit_plain c k Hk) as [_ Hl]. cbn. by rewrite Hl.
Qed.

End KeyFacts.

Section LookupMore.
Context `{Realm}.

(** X6. Only [translations], the [regional] option and the environment
    reach [t]: two option sets that agree on them give the same lookup,
    and an omitted [locale] argument stands for the resolved default
    locale even when a custom entry named [regional] replaces
    [CONFIG.regional]. *)
Theorem t_ignores_other_options (env : gmap string string) (options : BrandModuleOptions) :
  let module := createBrandConfig env options in
  let resolved :=
    defaultLocale (regionalConfig env (default empty_regional (Options.regional options))) in
  (forall options',
     Options.translations options' = Options.translations options ->
     Options.regional options' = Options.regional options ->
     forall key locale,
       BrandModule.t (createBrandConfig env options') key locale
       = BrandModule.t module key locale) /\
  (forall key, BrandModule.t module key None = BrandModule.t module key (Some resolved)) /\
  (forall v key,
     default ∅ (Options.customConfig options) !! "regional" = Some v ->
     BrandModule.CONFIG module !! "regional" = Some v /\
     BrandModule.t module key None = BrandModule.t module key (Some resolved)).
Proof.
  intros module resolved. split; [| split].
  - intros options' Htr Hreg key locale.
    cbn [module createBrandConfig BrandModule.t]. by rewrite Htr, Hreg.
  - done.
  - intros v key Hv. split; [| done].
    unfold module. by rewrite CONFIG_lookup, Hv.
Qed.


(** X8. A segment that is an array index selects the element of an array
    reached by the key before it, and [length] its length; an index out of
    range is read from the prototype chain, so it is [undefined] when
    nothing is inherited under that name. *)
Theorem getValue_indexes_arrays (d : JsVal) (before seg : string)
    (elems : list JsVal) (i : nat) :
  getValue d before = Ok (JArr elems) ->
  JsString.array_index seg = Some i ->
  (forall v, elems !! i = Some v -> getValue d (before +:+ "." +:+ seg) = Ok v) /\
  (elems !! i = None ->
   getValue d (before +:+ "." +:+ seg) = Ok (inherited (JArr elems) seg)) /\
  ((List.length elems <= i)%nat -> elems !! i = None) /\
  getValue d (before +:+ ".length") = Ok (JNum (Z.of_nat (List.length elems))).
Proof.
  intros Harr Hidx.
  destruct (KeyFacts.array_index_plain seg i Hidx) as [Hdot Hlen].
  assert (Hseg : getValue d (before +:+ "." +:+ seg)
                 = Ok (default (inherited (JArr elems) seg) (elems !! i))).
  { rewrite getValue_dot, Harr. cbn. unfold getValue.
    rewrite (JsStringFacts.split_piece "." "" seg Hdot). cbn.
    unfold arr_own. by rewrite Hlen, Hidx. }
  split; [| split; [| split]].
  - intros v Hv. by rewrite Hseg, Hv.
  - intros Hnone. by rewrite Hseg, Hnone.
  - apply lookup_ge_None_2.
  - change (before +:+ ".length") with (before +:+ "." +:+ "length").
    by rewrite getValue_dot, Harr.
Qed.

(** X9. A segment that is an index selects one code unit of a string
    leaf when it is below the length of the string; from the length on it
    is read from the prototype chain. *)
Theorem getValue_indexes_strings (d : JsVal) (before seg s : string) (i : nat) :
  getValue d before = Ok (JStr s) ->
  JsString.array_index seg = Some i ->
  (forall c, String.get i s = Some c ->
     getValue d (before +:+ "." +:+ seg) = Ok (JStr (String c ""))) /\
  (String.get i s = None ->
   getValue d (before +:+ "." +:+ seg) = Ok (inherited (JStr s) seg)) /\
  ((String.length s <= i)%nat -> String.get i s = None).
Proof.
  intros Hstr Hidx.
  destruct (KeyFacts.array_index_plain seg i Hidx) as [Hdot Hlen].
  assert (Hseg : getValue d (before +:+ "." +:+ seg)
                 = Ok (default (inherited (JStr s) seg) (str_own s seg))).
  { rewrite getValue_dot, Hstr. cbn. unfold getValue.
    by rewrite (JsStringFacts.split_piece "." "" seg Hdot). }
  unfold str_own in Hseg. rewrite Hlen, Hidx in Hseg.
  split; [| split].
  - intros c Hc. by rewrite Hseg, Hc.
  - intros Hnone. by rewrite Hseg, Hnone.
  - clear. revert i. induction s as [|c s IH]; intros [|i]; cbn; try done; try lia.
    intros Hle. apply IH. lia.
Qed.

(** X10. The segments that [getValue] walks are the pieces of the key
    between its dots: there is one more segment than the key has dots, no
    segment holds a dot, and joined by dots they give the key back. A
    nullish dictionary yields [undefined] for every key. *)
Theorem getValue_walks_the_dotted_segments (d : JsVal) (key : string) :
  let segments := JsString.split "." key in
  getValue d key = getValue_loop d segments /\
  List.length segments = S (count_char "." key) /\
  Forall (fun seg => JsString.has_char "." seg = false) segments /\
  JsString.join "." segments = key /\
  (is_nullish d = true -> getValue d key = Ok JUndef).
Proof.
  intros segments. split; [done |]. split; [apply KeyFacts.split_char_length |].
  split; [apply KeyFacts.split_char_pieces |]. split; [apply KeyFacts.join_split_char |].
  intros Hd. apply getValue_loop_nullish; [done | apply JsStringFacts.split_from_nonempty].
Qed.

End LookupMore.

(** * Further properties of the cookie helpers *)

Module WriteFacts.
Import JsString JsStringFacts.

(** The first piece of a split is the text before the first separator. *)
Lemma split_char_head (c : ascii) (s : string) :
  has_char c (hd "" (split (String c "") s)) = false /\
  String.prefix (hd "" (split (String c "") s)) s = true /\
  (has_char c s = false -> hd "" (split (String c "") s) = s).
Proof.
  pose proof (KeyFacts.split_char_pieces c s) as Hall.
  pose proof (KeyFacts.join_split_char c s) as Hjoin.
  pose proof (split_piece c "" s) as Hwhole.
  destruct (split (String c "") s) as [|h rest] eqn:Hs.
  - by apply (split_from_nonempty (String c "") 0 s) in Hs.
  - cbn [hd]. apply Forall_cons in Hall as [Hh _]. split; [done |]. split.
    + rewrite <- Hjoin. destruct rest as [|h' rest]; cbn [join].
      * clear. induction h as [|x h IH]; cbn; [done |]. by destruct (ascii_dec x x).
      * apply prefix_refl_app.
    + intros Hfree. by injection (Hwhole Hfree).
Qed.

(** The text a write of [NEXT_LOCALE=<locale>; ...] stores as the value:
    the locale itself when it holds no [;] and no outer blanks. *)
Lemma parse_written_cookie (locale : string) :
  has_char ";" locale = false -> trim locale = locale ->
  parse_cookie ("NEXT_LOCALE=" +:+ locale +:+ "; path=/; max-age=31536000; SameSite=Lax")
  = Some (locale_cookie locale).
Proof.
  intros Hsemi Htrim. unfold parse_cookie.
  change ("NEXT_LOCALE=" +:+ locale +:+ "; path=/; max-age=31536000; SameSite=Lax")
    with ("NEXT_LOCALE=" +:+ (locale +:+ String ";" " path=/; max-age=31536000; SameSite=Lax")).
  rewrite <- append_assoc, CookieFacts.cut_first by (by rewrite has_char_app, Hsemi).
  change ("NEXT_LOCALE=" +:+ locale) with ("NEXT_LOCALE" +:+ String "=" locale).
  rewrite CookieFacts.cut_first by done. by rewrite Htrim.
Qed.

(** Whatever the locale, the cookie written is named [NEXT_LOCALE]. *)
Lemma parse_written_name (rest : string) :
  exists c, parse_cookie ("NEXT_LOCALE=" +:+ rest) = Some c /\ cookie_name c = "NEXT_LOCALE".
Proof.
  unfold parse_cookie.
  assert (Hcut : cut ";" ("NEXT_LOCALE=" +:+ rest) =
            match cut ";" rest with
            | Some (l, r) => Some ("NEXT_LOCALE=" +:+ l, r)
            | None => None
            end).
  { cbn. by destruct (cut ";" rest) as [[l r]|]. }
  rewrite Hcut. destruct (cut ";" rest) as [[l r]|]; cbn; eauto.
Qed.

Lemma store_cookie_twice (c1 c2 : Cookie) (jar : list Cookie) :
  cookie_name c1 = cookie_name c2 ->
  store_cookie c2 (store_cookie c1 jar) = store_cookie c2 jar.
Proof.
  intros Hname. induction jar as [|c jar IH]; cbn [store_cookie].
  - by rewrite Hname, String.eqb_refl.
  - rewrite Hname. destruct (String.eqb (cookie_name c) (cookie_name c2)) eqn:Hc;
      cbn [store_cookie].
    + by rewrite Hname, String.eqb_refl.
    + by rewrite Hc, IH.
Qed.

Lemma store_cookie_others (c : Cookie) (jar : list Cookie) :
  filter (fun c' => cookie_name c' ≠ cookie_name c) (store_cookie c jar)
  = filter (fun c' => cookie_name c' ≠ cookie_name c) jar.
Proof.
  induction jar as [|c' jar IH]; cbn [store_cookie].
  - by rewrite filter_cons_False by (by intros Hne).
  - destruct (String.eqb_spec (cookie_name c') (cookie_name c)) as [Heq|Hne].
    + rewrite !filter_cons_False; [done | by intros Hne | by intros Hne].
    + by rewrite !filter_cons_True, IH.
Qed.

Lemma store_cookie_length (c : Cookie) (jar : list Cookie) :
  (List.length jar <= List.length (store_cookie c jar) <= S (List.length jar))%nat.
Proof.
  induction jar as [|c' jar IH]; cbn [store_cookie List.length]; [lia |].
  destruct (String.eqb (cookie_name c') (cookie_name c)); cbn [List.length]; lia.
Qed.

End WriteFacts.

Section StoreMore.
Import JsString.

Lemma setLocaleCookie_stores (locale : string) (d : Document) :
  has_char ";" locale = false -> trim locale = locale ->
  setLocaleCookie locale (Some d)
  = Ok (Some {| cookies := store_cookie (locale_cookie locale) (cookies d) |}).
Proof.
  intros Hsemi Htrim. unfold setLocaleCookie, write_cookie.
  cbn [document_undefined the_document mbind Result_bind].
  by rewrite WriteFacts.parse_written_cookie.
Qed.

Lemma locale_cookie_ok (locale : string) :
  has_char ";" locale = false -> cookie_ok (locale_cookie locale).
Proof. by intros Hsemi. Qed.

(** X11. A locale that holds an [=] does not survive the round trip.
    For a locale of printable characters other than [;] (no blank and no
    control character), and a store of well-formed cookies that holds no
    [NEXT_LOCALE] cookie under another path or domain, [getLocaleCookie]
    returns only the text before the first [=] of what [setLocaleCookie]
    stored, and the whole locale exactly when it holds no [=]. *)
Theorem locale_cookie_is_cut_at_equals (locale : string) (d : Document) :
  plain_value locale = true ->
  Forall cookie_ok (cookies d) ->
  only_own_locale_cookie d ->
  let back := hd "" (split "=" locale) in
  (document ← setLocaleCookie locale (Some d); getLocaleCookie document) = Ok (JStr back) /\
  String.prefix back locale = true /\
  has_char "=" back = false /\
  (back = locale <-> has_char "=" locale = false).
Proof.
  intros Hplain Hok _ back.
  destruct (CookieFacts.plain_value_plain locale Hplain) as [Hsemi Htrim].
  destruct (WriteFacts.split_char_head "=" locale) as (Hfree & Hprefix & Hwhole).
  fold back in Hfree, Hprefix, Hwhole.
  split; [| split; [done | split; [done |]]].
  - rewrite setLocaleCookie_stores by done. cbn [mbind Result_bind].
    rewrite getLocaleCookie_first_entry
      by (apply store_cookie_all_ok; [by apply locale_cookie_ok | done]).
    cbn [cookies]. by rewrite (find_stored (locale_cookie locale)).
  - split; [intros Hback; by rewrite <- Hback | exact Hwhole].
Qed.

(** X12. Of two writes the last one wins. For locales [a] and [b] of
    printable characters other than [;] (no blank and no control
    character), and a store that holds no [NEXT_LOCALE] cookie under
    another path or domain, writing [a] and then [b] leaves the store
    exactly as writing [b] alone does, so writing the same locale twice
    changes nothing more, and what is read back afterwards is what the
    second write alone gives. *)
Theorem last_locale_write_wins (a b : string) (d : Document) :
  plain_value a = true ->
  plain_value b = true ->
  only_own_locale_cookie d ->
  (after_a ← setLocaleCookie a (Some d); setLocaleCookie b after_a)
  = setLocaleCookie b (Some d) /\
  (after_a ← setLocaleCookie a (Some d); after_b ← setLocaleCookie b after_a;
   getLocaleCookie after_b)
  = (after_b ← setLocaleCookie b (Some d); getLocaleCookie after_b).
Proof.
  intros Hplain_a Hplain_b _.
  destruct (CookieFacts.plain_value_plain a Hplain_a) as [Ha Ha'].
  destruct (CookieFacts.plain_value_plain b Hplain_b) as [Hb Hb'].
  assert (Htwice : (after_a ← setLocaleCookie a (Some d); setLocaleCookie b after_a)
                   = setLocaleCookie b (Some d)).
  { rewrite (setLocaleCookie_stores a) by done. cbn [mbind Result_bind].
    rewrite !(setLocaleCookie_stores b) by done. cbn [cookies].
    by rewrite WriteFacts.store_cookie_twice. }
  split; [exact Htwice |].
  rewrite <- Htwice. by destruct (setLocaleCookie a (Some d)).
Qed.

(** X13. Whatever the locale string, [setLocaleCookie] touches no cookie
    other than [NEXT_LOCALE]: the other cookies are kept, in their order,
    and the store grows by one cookie at most. *)
Theorem setLocaleCookie_keeps_other_cookies (locale : string) (d : Document) :
  exists d',
    setLocaleCookie locale (Some d) = Ok (Some d') /\
    filter (fun c => cookie_name c ≠ "NEXT_LOCALE") (cookies d')
      = filter (fun c => cookie_name c ≠ "NEXT_LOCALE") (cookies d) /\
    (forall c, c ∈ cookies d -> cookie_name c ≠ "NEXT_LOCALE" -> c ∈ cookies d') /\
    (List.length (cookies d) <= List.length (cookies d') <= S (List.length (cookies d)))%nat.
Proof.
  destruct (WriteFacts.parse_written_name
              (locale +:+ "; path=/; max-age=31536000; SameSite=Lax")) as (c & Hparse & Hname).
  exists {| cookies := store_cookie c (cookies d) |}.
  assert (Hothers : filter (fun c' => cookie_name c' ≠ "NEXT_LOCALE") (store_cookie c (cookies d))
                    = filter (fun c' => cookie_name c' ≠ "NEXT_LOCALE") (cookies d))
    by (rewrite <- Hname; apply WriteFacts.store_cookie_others).
  split; [| split; [exact Hothers | split]].
  - unfold setLocaleCookie, write_cookie. cbn [document_undefined the_document mbind Result_bind].
    by rewrite Hparse.
  - intros c' Hin Hne. cbn [cookies].
    assert (Hfiltered : c' ∈ filter (fun c0 => cookie_name c0 ≠ "NEXT_LOCALE")
                                 (store_cookie c (cookies d)))
      by (rewrite Hothers; by apply list_elem_of_filter).
    by apply list_elem_of_filter in Hfiltered as [_ ?].
  - apply WriteFacts.store_cookie_length.
Qed.

(** X14. [getLocaleCookie] answers with the first cookie whose name is
    exactly [NEXT_LOCALE], cut at the first [=] of its value: cookies
    before it under any other name are passed over, and cookies after it
    are not looked at. *)
Theorem getLocaleCookie_reads_first_exact_name (before after : list Cookie) (c : Cookie) :
  Forall cookie_ok (before ++ c :: after)%list ->
  Forall (fun c' => cookie_name c' ≠ "NEXT_LOCALE") before ->
  cookie_name c = "NEXT_LOCALE" ->
  getLocaleCookie (Some {| cookies := (before ++ c :: after)%list |})
  = Ok (JStr (hd "" (split "=" (cookie_value c)))).
Proof.
  intros Hok Hbefore Hname.
  rewrite getLocaleCookie_first_entry by done. cbn [cookies].
  assert (Hfind : List.find (fun c' => String.eqb (cookie_name c') "NEXT_LOCALE")
                    (before ++ c :: after)%list = Some c).
  { clear Hok. induction Hbefore as [|c' before Hc' _ IH]; cbn [app List.find].
    - by rewrite Hname.
    - apply String.eqb_neq in Hc'. by rewrite Hc'. }
  by rewrite Hfind.
Qed.

End StoreMore.

(** ** Instances *)

Lemma omitted_marketing_languages_add_defaults_witness :
  BrandModule.CONFIG (@createBrandConfig sample_realm ∅ (without_custom german_dashboard)) !! "i18n"
  = Some (js_of_i18n ["de-DE"; "en-US"; "es-ES"; "fr-FR"]).
Proof.
  exact (proj1 (@omitted_marketing_languages_add_defaults sample_realm ∅ german_dashboard eq_refl)).
Defined.


Lemma getValue_indexes_arrays_witness :
  @getValue sample_realm items_dictionary "items.1" = Ok (JStr "two") /\
  @getValue sample_realm items_dictionary "items.length" = Ok (JNum 2).
Proof.
  pose proof (@getValue_indexes_arrays sample_realm items_dictionary "items" "1"
                [JStr "one"; JStr "two"] 1 eq_refl eq_refl) as (Hin & _ & _ & Hlen).
  split; [exact (Hin (JStr "two") eq_refl) | exact Hlen].
Defined.

Lemma getValue_indexes_strings_witness :
  @getValue sample_realm items_dictionary "title.1" = Ok (JStr "i") /\
  @getValue sample_realm items_dictionary "title.2" = Ok JUndef.
Proof.
  split.
  - exact (proj1 (@getValue_indexes_strings sample_realm items_dictionary "title" "1" "hi" 1
                    eq_refl eq_refl) "i"%char eq_refl).
  - exact (proj1 (proj2 (@getValue_indexes_strings sample_realm items_dictionary "title" "2"
                           "hi" 2 eq_refl eq_refl)) eq_refl).
Defined.

Lemma locale_cookie_is_cut_at_equals_witness :
  (document ← setLocaleCookie "zh=Hant" (Some visited_document); getLocaleCookie document)
  = Ok (JStr "zh").
Proof.
  exact (proj1 (locale_cookie_is_cut_at_equals "zh=Hant" visited_document eq_refl
                  (proj1 visited_document_ok) (proj2 visited_document_ok))).
Defined.

Lemma last_locale_write_wins_witness :
  (after_a ← setLocaleCookie "fr-FR" (Some visited_document); setLocaleCookie "es-ES" after_a)
  = setLocaleCookie "es-ES" (Some visited_document).
Proof.
  exact (proj1 (last_locale_write_wins "fr-FR" "es-ES" visited_document
                  eq_refl eq_refl (proj2 visited_document_ok))).
Defined.

Lemma getLocaleCookie_reads_first_exact_name_witness :
  getLocaleCookie (Some sample_document) = Ok (JStr "en-US").
Proof.
  refine (getLocaleCookie_reads_first_exact_name
            [ {| cookie_name := "theme"; cookie_value := "dark"; cookie_attributes := [] |} ]
            []
            {| cookie_name := "NEXT_LOCALE"; cookie_value := "en-US";
               cookie_attributes := ["path=/"] |}
            (proj1 (proj1 sample_documents_ok)) _ eq_refl).
  apply Forall_singleton. discriminate.
Defined.

Example setLocaleCookie_examples :
  setLocaleCookie "fr; max-age=0" (Some {| cookies := [] |})
    = Ok (Some {| cookies :=
                    [ {| cookie_name := "NEXT_LOCALE"; cookie_value := "fr";
                         cookie_attributes :=
                           ["max-age=0"; "path=/"; "max-age=31536000"; "SameSite=Lax"] |} ] |}) /\
  read_cookie {| cookies := store_cookie (locale_cookie "fr-FR") (cookies sample_document) |}
    = "theme=dark; NEXT_LOCALE=fr-FR".
Proof. split; reflexivity. Qed.

(** * The environment and the aggregate *)

Lemma foldl_define_frame (entries : list (string * JsVal)) (m m' : gmap string JsVal)
    (k : string) :
  m !! k = m' !! k -> foldl define m entries !! k = foldl define m' entries !! k.
Proof.
  revert m m'. induction entries as [|[k0 v0] entries IH]; intros m m' Hk; [done |].
  cbn [foldl]. apply IH. unfold define. cbn [fst snd].
  destruct (decide (k0 = k)) as [->|Hne].
  - by rewrite !lookup_insert_eq.
  - by rewrite !lookup_insert_ne.
Qed.

Lemma object_literal_frame (k : string) (x x' y y' : JsVal) (rest : list (string * JsVal)) :
  k <> "brand" -> k <> "regional" ->
  object_literal (("brand", x) :: ("regional", y) :: rest) !! k
  = object_literal (("brand", x') :: ("regional", y') :: rest) !! k.
Proof.
  intros Hbrand Hregional. unfold object_literal. cbn [foldl].
  apply foldl_define_frame. unfold define. cbn [fst snd].
  by rewrite !lookup_insert_ne.
Qed.

Section EnvironmentFrame.
Context `{Realm}.

(** X15. The environment variables reach [CONFIG] through the [brand] and
    [regional] blocks only: under any two environments every other entry of
    [CONFIG] is the same, and with every brand and regional option given
    and non-empty (and the logo given) the whole of [CONFIG] is. *)
Theorem environment_reaches_brand_and_regional_only (env env' : gmap string string)
    (options : BrandModuleOptions) :
  (forall k, k <> "brand" -> k <> "regional" ->
     BrandModule.CONFIG (createBrandConfig env options) !! k
     = BrandModule.CONFIG (createBrandConfig env' options) !! k) /\
  (forall b r,
     Options.brand options = Some b -> Options.regional options = Some r ->
     present (name b) -> present (tagline b) -> logoUrl b <> None ->
     present (primaryColor b) -> present (secondaryColor b) -> present (tertiaryColor b) ->
     present (Options.defaultCurrency r) -> present (Options.defaultLocale r) ->
     BrandModule.CONFIG (createBrandConfig env options)
     = BrandModule.CONFIG (createBrandConfig env' options)).
Proof.
  split.
  - intros k Hbrand Hregional.
    rewrite (CONFIG_lookup env options k), (CONFIG_lookup env' options k).
    destruct (default ∅ (Options.customConfig options) !! k); [done |]. cbn [from_option].
    cbn [createBrandConfig BrandModule.CONFIG without_custom Options.customConfig default].
    rewrite !spread_union, !(left_id_L ∅ (∪)). unfold built_in.
    by apply object_literal_frame.
  - intros b r Hb Hr Hname Htag Hlogo Hp Hs Ht Hcur Hloc.
    assert (Hbc : brandConfig env b = brandConfig env' b).
    { unfold brandConfig. rewrite !str_or_of_present by done. by destruct (logoUrl b). }
    assert (Hrc : regionalConfig env r = regionalConfig env' r).
    { unfold regionalConfig. destruct Hcur as (c & Hc & Hcne), Hloc as (l & Hl & Hlne).
      rewrite Hc, Hl. apply String.eqb_neq in Hcne, Hlne.
      unfold str_or, str_or_else. by rewrite Hcne, Hlne, Hcne, Hlne. }
    cbn [createBrandConfig BrandModule.CONFIG]. rewrite Hb, Hr.
    cbn [default from_option id]. by rewrite Hbc, Hrc.
Qed.

End EnvironmentFrame.
